(** * Conflict-resolution voting of karrot (karrot/issues/models.py)

    A shallow embedding of the [Issue], [Voting], [Option] and [Vote]
    models and of their methods.  The relational store is an explicit
    record of tables; every method is a computation in a small state and
    exception monad over that store.  Writes made before an exception is
    raised stay in the store, as they do for statements run one after the
    other against the database. *)

From Stdlib Require Import ZArith String.
From stdpp Require Import base list sorting gmap.

(** ** Enumerations *)

Inductive IssueStatus := ONGOING | DECIDED | CANCELLED.

Inductive OptionTypes := FURTHER_DISCUSSION | NO_CHANGE | REMOVE_USER.

Inductive HistoryTypus := MEMBER_REMOVED.

#[global] Instance IssueStatus_eq_dec : EqDecision IssueStatus.
Proof. solve_decision. Defined.

#[global] Instance OptionTypes_eq_dec : EqDecision OptionTypes.
Proof. solve_decision. Defined.

(** ** Rows

    Primary keys and foreign keys are natural numbers, timestamps are
    integers (microseconds), scores are integers. *)

Record Issue := mkIssue {
  issue_pk : option nat;          (* None until the first save *)
  issue_group : nat;
  issue_created_by : nat;
  issue_status : IssueStatus;
  issue_status_changed_at : option Z;
  issue_topic : string;
  issue_affected_user : option nat
}.

Record Voting := mkVoting {
  voting_pk : nat;
  voting_issue : nat;
  voting_expires_at : Z;
  voting_accepted_option : option nat
}.

Record Option := mkOption {
  option_pk : nat;
  option_voting : nat;
  option_type : OptionTypes;
  option_sum_score : option Z
}.

Record Vote := mkVote {
  vote_pk : nat;
  vote_user : nat;
  vote_option : nat;
  vote_score : Z
}.

Record History := mkHistory {
  history_typus : HistoryTypus;
  history_group : nat;
  history_users : list nat
}.

(** The two sinks of the module: [stats.*] usage events and the
    [issue_changed] signal.  Each carries the primary key of the issue. *)
Inductive Sender := SenderIssue | SenderVoting | SenderOption.

Inductive Event :=
| stats_issue_created (issue : nat)
| stats_voted (issue : nat)
| stats_vote_changed (issue : nat)
| stats_vote_deleted (issue : nat)
| issue_changed (sender : Sender) (issue : nat).

#[global] Instance Voting_eq_dec : EqDecision Voting.
Proof. solve_decision. Defined.

#[global] Instance Option_eq_dec : EqDecision Option.
Proof. solve_decision. Defined.

#[global] Instance Vote_eq_dec : EqDecision Vote.
Proof. solve_decision. Defined.

#[global] Instance Sender_eq_dec : EqDecision Sender.
Proof. solve_decision. Defined.

#[global] Instance Event_eq_dec : EqDecision Event.
Proof. solve_decision. Defined.

(** ** The store *)

Record DB := mkDB {
  issues : list Issue;
  votings : list Voting;
  options : list Option;
  votes : list Vote;
  memberships : list (nat * nat);   (* (group, user) *)
  history : list History;
  issue_seq : nat;
  voting_seq : nat;
  option_seq : nat;
  vote_seq : nat;
  log : list Event                  (* oldest first *)
}.

Definition empty_db : DB :=
  mkDB [] [] [] [] [] [] 0%nat 0%nat 0%nat 0%nat [].

Definition set_issues (f : list Issue → list Issue) (db : DB) : DB :=
  mkDB (f (issues db)) (votings db) (options db) (votes db) (memberships db)
       (history db) (issue_seq db) (voting_seq db) (option_seq db)
       (vote_seq db) (log db).

Definition set_votings (f : list Voting → list Voting) (db : DB) : DB :=
  mkDB (issues db) (f (votings db)) (options db) (votes db) (memberships db)
       (history db) (issue_seq db) (voting_seq db) (option_seq db)
       (vote_seq db) (log db).

Definition set_options (f : list Option → list Option) (db : DB) : DB :=
  mkDB (issues db) (votings db) (f (options db)) (votes db) (memberships db)
       (history db) (issue_seq db) (voting_seq db) (option_seq db)
       (vote_seq db) (log db).

Definition set_votes (f : list Vote → list Vote) (db : DB) : DB :=
  mkDB (issues db) (votings db) (options db) (f (votes db)) (memberships db)
       (history db) (issue_seq db) (voting_seq db) (option_seq db)
       (vote_seq db) (log db).

Definition set_memberships (f : list (nat * nat) → list (nat * nat)) (db : DB) : DB :=
  mkDB (issues db) (votings db) (options db) (votes db) (f (memberships db))
       (history db) (issue_seq db) (voting_seq db) (option_seq db)
       (vote_seq db) (log db).

Definition set_history (f : list History → list History) (db : DB) : DB :=
  mkDB (issues db) (votings db) (options db) (votes db) (memberships db)
       (f (history db)) (issue_seq db) (voting_seq db) (option_seq db)
       (vote_seq db) (log db).

Definition set_issue_seq (n : nat) (db : DB) : DB :=
  mkDB (issues db) (votings db) (options db) (votes db) (memberships db)
       (history db) n (voting_seq db) (option_seq db) (vote_seq db) (log db).

Definition set_voting_seq (n : nat) (db : DB) : DB :=
  mkDB (issues db) (votings db) (options db) (votes db) (memberships db)
       (history db) (issue_seq db) n (option_seq db) (vote_seq db) (log db).

Definition set_option_seq (n : nat) (db : DB) : DB :=
  mkDB (issues db) (votings db) (options db) (votes db) (memberships db)
       (history db) (issue_seq db) (voting_seq db) n (vote_seq db) (log db).

Definition set_vote_seq (n : nat) (db : DB) : DB :=
  mkDB (issues db) (votings db) (options db) (votes db) (memberships db)
       (history db) (issue_seq db) (voting_seq db) (option_seq db) n (log db).

Definition set_log (f : list Event → list Event) (db : DB) : DB :=
  mkDB (issues db) (votings db) (options db) (votes db) (memberships db)
       (history db) (issue_seq db) (voting_seq db) (option_seq db)
       (vote_seq db) (f (log db)).

(** ** The monad *)

Inductive Exn :=
  IntegrityError | DoesNotExist | MultipleObjectsReturned | IndexError | StopIteration.

Inductive Result (A : Type) :=
| Ok (a : A)
| Raise (e : Exn).
Arguments Ok {A} a.
Arguments Raise {A} e.

Definition M (A : Type) : Type := DB → Result A * DB.

Definition ret {A} (a : A) : M A := λ db, (Ok a, db).

Definition raise {A} (e : Exn) : M A := λ db, (Raise e, db).

Definition bind {A B} (m : M A) (k : A → M B) : M B :=
  λ db, match m db with
        | (Ok a, db') => k a db'
        | (Raise e, db') => (Raise e, db')
        end.

Definition gets {A} (f : DB → A) : M A := λ db, (Ok (f db), db).

Definition modify (f : DB → DB) : M unit := λ db, (Ok tt, f db).

Declare Scope db_scope.
Delimit Scope db_scope with db.
Notation "'do' x <- m 'in' k" := (bind m (λ x, k))
  (at level 10, x name, m at level 100, k at level 200) : db_scope.
Notation "'run' m 'in' k" := (bind m (λ _, k))
  (at level 10, m at level 100, k at level 200) : db_scope.
Local Open Scope db_scope.

(** [for x in l: body x] *)
Fixpoint for_each {A} (l : list A) (body : A → M unit) : M unit :=
  match l with
  | [] => ret tt
  | x :: l' => run body x in for_each l' body
  end.

Definition when (b : bool) (m : M unit) : M unit := if b then m else ret tt.

Definition emit (e : Event) : M unit := modify (set_log (λ l, l ++ [e])).

(** Python's [l[-k]] for [k >= 1]: [IndexError] when the list is too short. *)
Definition index_from_end {A} (l : list A) (k : nat) : M A :=
  if (length l <? k)%nat then raise IndexError
  else match l !! (length l - k)%nat with
       | Some x => ret x
       | None => raise IndexError
       end.

(** ** Queries *)

(** [issue.votings] *)
Definition issue_votings (issue : nat) (db : DB) : list Voting :=
  filter (λ v, voting_issue v = issue) (votings db).

(** [voting.options] *)
Definition voting_options (voting : nat) (db : DB) : list Option :=
  filter (λ o, option_voting o = voting) (options db).

(** [option__voting=voting] on a vote: the join with the option table. *)
Definition vote_in_voting (db : DB) (voting : nat) (vote : Vote) : Prop :=
  Exists (λ o, option_pk o = vote_option vote ∧ option_voting o = voting)
         (options db).

#[global] Instance vote_in_voting_dec db voting vote :
  Decision (vote_in_voting db voting vote).
Proof. unfold vote_in_voting. apply _. Defined.

(** [Vote.objects.filter(option__voting=voting, user=user)] *)
Definition votes_of (voting user : nat) (db : DB) : list Vote :=
  filter (λ vote, vote_in_voting db voting vote ∧ vote_user vote = user)
         (votes db).

(** [Sum('votes__score')] for one option: NULL when it has no vote. *)
Definition Sum_votes_score (option_id : nat) (db : DB) : option Z :=
  match filter (λ vote, vote_option vote = option_id) (votes db) with
  | [] => None
  | l => Some (foldr Z.add 0%Z (vote_score <$> l))
  end.

(** [Voting.objects.get(pk=pk)], [Issue.objects.get(pk=pk)] *)
Definition get_voting (pk : nat) : M Voting :=
  do l <- gets (λ db, filter (λ v, voting_pk v = pk) (votings db)) in
  match l with
  | [] => raise DoesNotExist
  | [v] => ret v
  | _ => raise MultipleObjectsReturned
  end.

Definition get_issue (pk : nat) : M Issue :=
  do l <- gets (λ db, filter (λ i, issue_pk i = Some pk) (issues db)) in
  match l with
  | [] => raise DoesNotExist
  | [i] => ret i
  | _ => raise MultipleObjectsReturned
  end.

(** ** Row-level writes *)

(** UPDATE of the row that has the key of [new]. *)
Definition update_row {A K} `{EqDecision K} (key : A → K) (new : A)
    (l : list A) : list A :=
  (λ r, if decide (key r = key new) then new else r) <$> l.

(** [Model.save] of an issue: INSERT when the instance has no primary key
    or no row has it, UPDATE of the row otherwise.  Returns the key. *)
Definition Issue_super_save (self : Issue) : M nat :=
  let insert pk :=
    modify (set_issues (λ l, l ++ [mkIssue (Some pk) (issue_group self)
      (issue_created_by self) (issue_status self)
      (issue_status_changed_at self) (issue_topic self)
      (issue_affected_user self)])) in
  match issue_pk self with
  | None =>
      do pk <- gets issue_seq in
      run modify (set_issue_seq (S pk)) in
      run insert pk in
      ret pk
  | Some pk =>
      do present <- gets (λ db,
        bool_decide (Exists (λ r, issue_pk r = Some pk) (issues db))) in
      run (if present
           then modify (set_issues (update_row issue_pk self))
           else insert pk) in
      ret pk
  end.

(** [voting.save()] and [option.save()] of rows that are in the table. *)
Definition Voting_save (self : Voting) : M unit :=
  modify (set_votings (update_row voting_pk self)).

Definition Option_save (self : Option) : M unit :=
  modify (set_options (update_row option_pk self)).

(** [voting.options.create(type=type)] *)
Definition options_create (voting : nat) (type : OptionTypes) : M Option :=
  do pk <- gets option_seq in
  let o := mkOption pk voting type None in
  run modify (set_option_seq (S pk)) in
  run modify (set_options (λ l, l ++ [o])) in
  ret o.

(** [Vote.objects.create(option=option, score=score, user=user)]: the
    option must exist and [unique_together = ('user', 'option')] must
    hold, or the insert raises [IntegrityError]. *)
Definition Vote_create (user option_id : nat) (score : Z) : M Vote :=
  do ok <- gets (λ db,
    bool_decide (Exists (λ o, option_pk o = option_id) (options db)
                 ∧ ¬ Exists (λ w, vote_user w = user ∧ vote_option w = option_id)
                            (votes db))) in
  if ok then
    do pk <- gets vote_seq in
    let vote := mkVote pk user option_id score in
    run modify (set_vote_seq (S pk)) in
    run modify (set_votes (λ l, l ++ [vote])) in
    ret vote
  else raise IntegrityError.

(** [vote.delete()] *)
Definition Vote_delete (self : Vote) : M unit :=
  modify (set_votes (filter (λ w, vote_pk w ≠ vote_pk self))).

(** ** The models' methods *)

Section Models.

(** [settings.VOTING_DURATION_DAYS], [settings.VOTING_DUE_SOON_HOURS]. *)
Variable VOTING_DURATION_DAYS : Z.
Variable VOTING_DUE_SOON_HOURS : Z.

(** How the database places NULL in an ascending [ORDER BY]: after every
    value (PostgreSQL) when [true], before every value (SQLite, MySQL)
    when [false]. *)
Variable NULLS_LAST : bool.

Definition relativedelta_days (d : Z) : Z := (d * 86400000000)%Z.
Definition relativedelta_hours (h : Z) : Z := (h * 3600000000)%Z.

Definition voting_expiration_time (now : Z) : Z :=
  (now + relativedelta_days VOTING_DURATION_DAYS)%Z.

(** [VotingQuerySet.due_soon].  The method reads the clock twice: [now]
    is [timezone.now()] in its first line, [now'] in its second. *)
Definition due_soon (now now' : Z) (l : list Voting) : list Voting :=
  let in_some_hours := (now + relativedelta_hours VOTING_DUE_SOON_HOURS)%Z in
  filter (λ v, (now' < voting_expires_at v)%Z
               ∧ (voting_expires_at v < in_some_hours)%Z) l.

(** [Voting.is_expired] *)
Definition is_expired (now : Z) (self : Voting) : bool :=
  (voting_expires_at self <? now)%Z.

(** [issue.votings.create()] *)
Definition votings_create (issue : nat) (now : Z) : M Voting :=
  do pk <- gets voting_seq in
  let v := mkVoting pk issue (voting_expiration_time now) None in
  run modify (set_voting_seq (S pk)) in
  run modify (set_votings (λ l, l ++ [v])) in
  ret v.

(** [Voting.create_options] *)
Definition create_options (self : Voting) : M unit :=
  let options := [FURTHER_DISCUSSION; NO_CHANGE; REMOVE_USER] in
  for_each options (λ type,
    do _o <- options_create (voting_pk self) type in ret tt).

(** [Issue.save]; returns the primary key the instance has afterwards. *)
Definition Issue_save (now : Z) (self : Issue) : M nat :=
  let created := bool_decide (issue_pk self = None) in
  do pk <- Issue_super_save self in
  do count <- gets (λ db, length (issue_votings pk db)) in
  run when (count =? 0)%nat
        (do voting <- votings_create pk now in create_options voting) in
  run when created
        (run emit (stats_issue_created pk) in
         emit (issue_changed SenderIssue pk)) in
  ret pk.

Definition with_status (self : Issue) (s : IssueStatus) (now : Z) : Issue :=
  mkIssue (issue_pk self) (issue_group self) (issue_created_by self) s
          (Some now) (issue_topic self) (issue_affected_user self).

(** [Issue.decide] *)
Definition Issue_decide (now : Z) (self : Issue) : M unit :=
  do _pk <- Issue_save now (with_status self DECIDED now) in ret tt.

(** [Issue.cancel] *)
Definition cancel (now : Z) (self : Issue) : M unit :=
  do pk <- Issue_save now (with_status self CANCELLED now) in
  emit (issue_changed SenderIssue pk).

(** *** Vote submission *)

(** One entry of [vote_data]: the dict [{'option': ..., 'score': ...}]
    handed to [Vote.objects.create]. *)
Record VoteData := mkVoteData { data_option : nat; data_score : Z }.

#[global] Instance VoteData_eq_dec : EqDecision VoteData.
Proof. solve_decision. Defined.

(** [{vote.option_id: vote for vote in ...}]: a later vote on the same
    option replaces an earlier one. *)
Definition votes_dict (l : list Vote) : gmap nat Vote :=
  foldl (λ d vote, <[vote_option vote := vote]> d) ∅ l.

(** The body of the loop of [save_votes], on the pair
    [(created, existing)]. *)
Definition save_votes_body (user : nat) (votes : gmap nat Vote)
    (acc : list Vote * list Vote) (item : nat * VoteData)
    : M (list Vote * list Vote) :=
  let create :=
    do v <- Vote_create user (data_option item.2) (data_score item.2) in
    ret (acc.1 ++ [v], acc.2) in
  match votes !! item.1 with
  | Some vote =>
      if bool_decide (vote_score vote = data_score item.2)
      then ret (acc.1, acc.2 ++ [vote])
      else run Vote_delete vote in create
  | None => create
  end.

Fixpoint save_votes_loop (user : nat) (votes : gmap nat Vote)
    (acc : list Vote * list Vote) (vote_data : list (nat * VoteData))
    : M (list Vote * list Vote) :=
  match vote_data with
  | [] => ret acc
  | item :: rest =>
      do acc' <- save_votes_body user votes acc item in
      save_votes_loop user votes acc' rest
  end.

(** [Voting.save_votes] *)
Definition save_votes (self : Voting) (user : nat)
    (vote_data : list (nat * VoteData)) : M (list Vote) :=
  do votes <- gets (λ db, votes_dict (votes_of (voting_pk self) user db)) in
  do r <- save_votes_loop user votes ([], []) vote_data in
  let created := r.1 in
  let existing := r.2 in
  run (if (size votes =? 0)%nat then emit (stats_voted (voting_issue self))
       else when (0 <? length created)%nat
              (emit (stats_vote_changed (voting_issue self)))) in
  run when (0 <? length created)%nat
        (emit (issue_changed SenderVoting (voting_issue self))) in
  ret (created ++ existing).

(** [Voting.delete_votes] *)
Definition delete_votes (self : Voting) (user : nat) : M bool :=
  do mine <- gets (votes_of (voting_pk self) user) in
  run modify (λ db, set_votes (filter (λ w,
        ¬ (vote_in_voting db (voting_pk self) w ∧ vote_user w = user))) db) in
  let deleted := (0 <? length mine)%nat in
  run when deleted
        (run emit (stats_vote_deleted (voting_issue self)) in
         emit (issue_changed SenderVoting (voting_issue self))) in
  ret deleted.

(** *** Option actions *)

(** [Option._further_discussion] *)
Definition _further_discussion (now : Z) (self : Option) : M unit :=
  do voting <- get_voting (option_voting self) in
  do new_voting <- votings_create (voting_issue voting) now in
  do all <- gets (voting_options (voting_pk voting)) in
  for_each all (λ option,
    do _o <- options_create (voting_pk new_voting) (option_type option) in
    ret tt).

(** [group.groupmembership_set.get(user=affected_user)] *)
Definition get_membership (group : nat) (user : option nat) : M (nat * nat) :=
  do l <- gets (λ db, filter (λ m, m.1 = group ∧ Some m.2 = user)
                             (memberships db)) in
  match l with
  | [] => raise DoesNotExist
  | [m] => ret m
  | _ => raise MultipleObjectsReturned
  end.

(** [Option._remove_user] *)
Definition _remove_user (self : Option) : M unit :=
  do voting <- get_voting (option_voting self) in
  do issue <- get_issue (voting_issue voting) in
  let group := issue_group issue in
  let affected_user := issue_affected_user issue in
  do membership <- get_membership group affected_user in
  run modify (set_memberships (filter (λ m, m ≠ membership))) in
  modify (set_history (λ l, l ++
    [mkHistory MEMBER_REMOVED group (option_list affected_user)])).

(** [Option.do_action] *)
Definition do_action (now : Z) (self : Option) : M unit :=
  do voting <- get_voting (option_voting self) in
  run when (bool_decide (option_type self ≠ FURTHER_DISCUSSION))
        (do issue <- get_issue (voting_issue voting) in
         Issue_decide now issue) in
  run (if bool_decide (option_type self = FURTHER_DISCUSSION)
       then _further_discussion now self
       else when (bool_decide (option_type self = REMOVE_USER))
              (_remove_user self)) in
  emit (issue_changed SenderOption (voting_issue voting)).

(** *** Tally *)

(** Ascending order of [_sum_score] as the database compares it. *)
Definition sum_score_leb (a b : option Z) : bool :=
  match a, b with
  | None, None => true
  | None, Some _ => negb NULLS_LAST
  | Some _, None => NULLS_LAST
  | Some x, Some y => (x <=? y)%Z
  end.

Fixpoint insert_by_sum_score (o : Option) (l : list Option) : list Option :=
  match l with
  | [] => [o]
  | o' :: l' =>
      if sum_score_leb (option_sum_score o) (option_sum_score o')
      then o :: l
      else o' :: insert_by_sum_score o l'
  end.

(** [.order_by('_sum_score')], as a stable insertion sort.  The order of
    rows with equal keys is the database's choice; [accepted_of] below
    does not depend on it (lemma [accepted_of_any_order]). *)
Definition order_by_sum_score (l : list Option) : list Option :=
  foldr insert_by_sum_score [] l.

(** [.annotate(_sum_score=Sum('votes__score'))] followed by
    [option.sum_score = option._sum_score]: the instance with its
    aggregate written into [sum_score]. *)
Definition annotate (db : DB) (o : Option) : Option :=
  mkOption (option_pk o) (option_voting o) (option_type o)
           (Sum_votes_score (option_pk o) db).

(** [next(o for o in options if o.type == FURTHER_DISCUSSION)] *)
Definition next_further_discussion (options : list Option) : M Option :=
  match filter (λ o, option_type o = FURTHER_DISCUSSION) options with
  | o :: _ => ret o
  | [] => raise StopIteration
  end.

(** The choice made between [options[-1]] and the tie rule, on the
    ordered list. *)
Definition accepted_of (options : list Option) : M Option :=
  do accepted_option <- index_from_end options 1 in
  do second <- index_from_end options 2 in
  if bool_decide (option_sum_score second = option_sum_score accepted_option)
  then next_further_discussion options
  else ret accepted_option.

(** [Voting.calculate_results] *)
Definition calculate_results (now : Z) (self : Voting) : M unit :=
  do options <- gets (λ db,
    order_by_sum_score (annotate db <$> voting_options (voting_pk self) db)) in
  run for_each options Option_save in
  do accepted_option <- accepted_of options in
  run Voting_save (mkVoting (voting_pk self) (voting_issue self)
                     (voting_expires_at self) (Some (option_pk accepted_option))) in
  do_action now accepted_option.


(** *** Participants *)

(** The users with a vote on an option of the round, each once: the rows
    of [get_user_model().objects.filter(votes_given__option__voting=self)
    .distinct()], users being the rows the votes refer to. *)
Definition participants (voting : nat) (db : DB) : list nat :=
  remove_dups (vote_user <$> filter (vote_in_voting db voting) (votes db)).

(** [Count('options__votes__user', distinct=True)] for one round: the
    number of different users among the votes on the round's options. *)
Definition Count_options_votes_user (voting : nat) (db : DB) : nat :=
  length (remove_dups
    (voting_options voting db ≫= λ o,
       vote_user <$> filter (λ w, vote_option w = option_pk o) (votes db))).

(** [VotingQuerySet.annotate_participant_count]: every round with its
    [_participant_count]. *)
Definition annotate_participant_count (db : DB) (l : list Voting)
    : list (Voting * nat) :=
  (λ v, (v, Count_options_votes_user (voting_pk v) db)) <$> l.

(** [Voting.participant_count], for an instance that carries the
    annotation [_participant_count] or does not. *)
Definition participant_count (_participant_count : option nat)
    (self : Voting) (db : DB) : nat :=
  match _participant_count with
  | Some n => n
  | None => length (participants (voting_pk self) db)
  end.

(** ** Well-formed stores

    What the database guarantees of its tables: primary keys are unique
    and below the sequence that hands them out, foreign keys point to
    rows, and [unique_together = ('user', 'option')] holds for votes. *)

Definition issue_pk_below (n : nat) (i : Issue) : Prop :=
  match issue_pk i with Some pk => (pk < n)%nat | None => False end.

#[global] Instance issue_pk_below_dec n i : Decision (issue_pk_below n i).
Proof. unfold issue_pk_below. destruct (issue_pk i); apply _. Defined.

Definition wf_issues (db : DB) : Prop :=
  NoDup (issue_pk <$> issues db)
  ∧ Forall (issue_pk_below (issue_seq db)) (issues db).

Definition wf_votings (db : DB) : Prop :=
  NoDup (voting_pk <$> votings db)
  ∧ Forall (λ v, (voting_pk v < voting_seq db)%nat
                 ∧ Exists (λ i, issue_pk i = Some (voting_issue v)) (issues db))
           (votings db).

Definition wf_options (db : DB) : Prop :=
  NoDup (option_pk <$> options db)
  ∧ Forall (λ o, (option_pk o < option_seq db)%nat
                 ∧ Exists (λ v, voting_pk v = option_voting o) (votings db))
           (options db).

Definition wf_votes (db : DB) : Prop :=
  NoDup (vote_pk <$> votes db)
  ∧ NoDup ((λ w, (vote_user w, vote_option w)) <$> votes db)
  ∧ Forall (λ w, (vote_pk w < vote_seq db)%nat
                 ∧ Exists (λ o, option_pk o = vote_option w) (options db))
           (votes db).

Definition wf (db : DB) : Prop :=
  wf_issues db ∧ wf_votings db ∧ wf_options db ∧ wf_votes db.

#[global] Instance wf_dec db : Decision (wf db).
Proof. unfold wf, wf_issues, wf_votings, wf_options, wf_votes. apply _. Defined.

(** The invariant of a round: one option of each of the three types. *)
Definition has_fixed_options (voting : nat) (db : DB) : Prop :=
  option_type <$> voting_options voting db
    ≡ₚ [FURTHER_DISCUSSION; NO_CHANGE; REMOVE_USER].

(** The row of a primary key, for stating results. *)
Definition lookup_voting (pk : nat) (db : DB) : option Voting :=
  head (filter (λ v, voting_pk v = pk) (votings db)).

Definition lookup_issue (pk : nat) (db : DB) : option Issue :=
  head (filter (λ i, issue_pk i = Some pk) (issues db)).

(** The rows that [options.create] adds, one per type, from the sequence
    value [seq] on. *)
Fixpoint fresh_options (seq voting : nat) (types : list OptionTypes)
    : list Option :=
  match types with
  | [] => []
  | type :: rest =>
      mkOption seq voting type None :: fresh_options (S seq) voting rest
  end.

(** The table after [option.save()] of each option of [l] in turn. *)
Definition saved_options (l : list Option) (t : list Option) : list Option :=
  foldl (λ t o, update_row option_pk o t) t l.

(** One row under the saves of the options [l], one after the other. *)
Definition saved_row (l : list Option) (r : Option) : Option :=
  foldl (λ r o, if decide (option_pk r = option_pk o) then o else r) r l.

(** *** The outcome of [save_votes], stated on lists

    For the dict [votes] of the user's votes before the call, an entry of
    [vote_data] either names a vote that already has that score (it is
    kept), or names a vote with another score (it is replaced), or names
    an option without a vote; in the last two cases a vote is created. *)

Definition unchanged_vote (votes : gmap nat Vote) (item : nat * VoteData)
    : option Vote :=
  match votes !! item.1 with
  | Some vote =>
      if bool_decide (vote_score vote = data_score item.2)
      then Some vote else None
  | None => None
  end.

Definition replaced_vote (votes : gmap nat Vote) (item : nat * VoteData)
    : option Vote :=
  match votes !! item.1 with
  | Some vote =>
      if bool_decide (vote_score vote = data_score item.2)
      then None else Some vote
  | None => None
  end.

Definition kept (votes : gmap nat Vote) (vote_data : list (nat * VoteData))
    : list Vote :=
  omap (unchanged_vote votes) vote_data.

Definition replaced (votes : gmap nat Vote)
    (vote_data : list (nat * VoteData)) : list Vote :=
  omap (replaced_vote votes) vote_data.

Definition to_create (votes : gmap nat Vote)
    (vote_data : list (nat * VoteData)) : list (nat * VoteData) :=
  filter (λ item, ¬ is_Some (unchanged_vote votes item)) vote_data.

(** The rows that [Vote.objects.create] adds for the entries [items],
    from the sequence value [seq] on. *)
Fixpoint new_votes (user seq : nat) (items : list (nat * VoteData))
    : list Vote :=
  match items with
  | [] => []
  | item :: rest =>
      mkVote seq user (data_option item.2) (data_score item.2)
        :: new_votes user (S seq) rest
  end.

(** The vote table after the loop of [save_votes]. *)
Definition votes_after (user : nat) (votes : gmap nat Vote)
    (vote_data : list (nat * VoteData)) (seq : nat) (table : list Vote)
    : list Vote :=
  filter (λ w, vote_pk w ∉ vote_pk <$> replaced votes vote_data) table
  ++ new_votes user seq (to_create votes vote_data).

(** [vote_data] as the caller builds it: a dict (no key twice), whose
    entry for a key carries that option, an option of this round. *)
Definition valid_vote_data (self : Voting)
    (vote_data : list (nat * VoteData)) (db : DB) : Prop :=
  NoDup vote_data.*1
  ∧ Forall (λ item, data_option item.2 = item.1
                    ∧ Exists (λ o, option_pk o = item.1
                                   ∧ option_voting o = voting_pk self)
                             (options db))
           vote_data.

(** What the loop of [save_votes] relies on, for the entries [rest] it
    still has to handle and the dict [d] taken before the loop: primary
    keys of votes are unique and below the sequence, no key occurs twice,
    every entry carries its own key as option and the option exists, and
    for the keys of [rest] the dict still tells the user's votes. *)
Definition loop_ready (user : nat) (d : gmap nat Vote)
    (rest : list (nat * VoteData)) (db : DB) : Prop :=
  NoDup (vote_pk <$> votes db)
  ∧ Forall (λ w, (vote_pk w < vote_seq db)%nat) (votes db)
  ∧ NoDup rest.*1
  ∧ Forall (λ item, data_option item.2 = item.1
                    ∧ Exists (λ o, option_pk o = item.1) (options db)) rest
  ∧ ∀ item w, item ∈ rest →
      (w ∈ votes db ∧ vote_user w = user ∧ vote_option w = item.1)
      ↔ d !! item.1 = Some w.

(** The events [save_votes] emits, for the dict taken before the loop
    and the list of created votes. *)
Definition save_votes_events (self : Voting) (d : gmap nat Vote)
    (created : list Vote) : list Event :=
  (if (size d =? 0)%nat then [stats_voted (voting_issue self)]
   else if (0 <? length created)%nat
        then [stats_vote_changed (voting_issue self)] else [])
  ++ (if (0 <? length created)%nat
      then [issue_changed SenderVoting (voting_issue self)] else []).


(** The part of the store that holds issues, rounds and options. *)
Definition core (db : DB)
    : list Issue * list Voting * list Option * (nat * nat * nat) :=
  (issues db, votings db, options db,
   (issue_seq db, voting_seq db, option_seq db)).

(** The order the database sorts [_sum_score] by, on options. *)
Definition sum_score_le (a b : Option) : Prop :=
  sum_score_leb (option_sum_score a) (option_sum_score b) = true.

(** ** The issue state machine

    The operations a caller runs against the store.  Each takes the
    instance it is called on; [enabled] says the instance is a row of the
    store (or, for creation, has no primary key yet).  With [guarded] the
    tally is only run on a round that has no accepted option. *)

Inductive Action :=
| CreateIssue (now : Z) (issue : Issue)
| SaveVotes (voting : Voting) (user : nat) (vote_data : list (nat * VoteData))
| DeleteVotes (voting : Voting) (user : nat)
| Tally (now : Z) (voting : Voting)
| Cancel (now : Z) (issue : Issue).

Definition enabled (guarded : bool) (a : Action) (db : DB) : Prop :=
  match a with
  | CreateIssue _ issue => issue_pk issue = None
  | SaveVotes voting _ _ => voting ∈ votings db
  | DeleteVotes voting _ => voting ∈ votings db
  | Tally _ voting =>
      voting ∈ votings db
      ∧ (guarded = true → voting_accepted_option voting = None)
  | Cancel _ issue => issue ∈ issues db
  end.

(** The store after the operation, whether it returned or raised. *)
Definition perform (a : Action) (db : DB) : DB :=
  match a with
  | CreateIssue now issue => (Issue_save now issue db).2
  | SaveVotes voting user vote_data => (save_votes voting user vote_data db).2
  | DeleteVotes voting user => (delete_votes voting user db).2
  | Tally now voting => (calculate_results now voting db).2
  | Cancel now issue => (cancel now issue db).2
  end.

Inductive reachable (guarded : bool) : DB → Prop :=
| reachable_initial memberships history :
    reachable guarded (mkDB [] [] [] [] memberships history 0 0 0 0 [])
| reachable_step a db :
    reachable guarded db → enabled guarded a db →
    reachable guarded (perform a db).

(** The rounds of an issue without an accepted option. *)
Definition open_rounds (issue : nat) (db : DB) : list Voting :=
  filter (λ v, voting_issue v = issue ∧ voting_accepted_option v = None)
         (votings db).

(** A round whose accepted option is not [further_discussion]. *)
Definition decisive (db : DB) (v : Voting) : Prop :=
  Exists (λ o, voting_accepted_option v = Some (option_pk o)
               ∧ option_type o ≠ FURTHER_DISCUSSION)
         (options db).

(** An issue one of whose rounds is decisive. *)
Definition settled (issue : nat) (db : DB) : Prop :=
  Exists (λ v, voting_issue v = issue ∧ decisive db v) (votings db).

#[global] Instance settled_dec issue db : Decision (settled issue db).
Proof. unfold settled, decisive. apply _. Defined.

(** The instance of a round once [accepted_option] is assigned. *)
Definition accept (v : Voting) (o : nat) : Voting :=
  mkVoting (voting_pk v) (voting_issue v) (voting_expires_at v) (Some o).

(** The store with one more round on [issue], with new options of the
    given types. *)
Definition append_round (db : DB) (issue : nat) (expires_at : Z)
    (types : list OptionTypes) : DB :=
  mkDB (issues db)
       (votings db ++ [mkVoting (voting_seq db) issue expires_at None])
       (options db ++ fresh_options (option_seq db) (voting_seq db) types)
       (votes db) (memberships db) (history db) (issue_seq db)
       (S (voting_seq db)) (option_seq db + length types) (vote_seq db)
       (log db).

(** What an option is, apart from its sum score. *)
Definition option_key (o : Option) : nat * nat * OptionTypes :=
  (option_pk o, option_voting o, option_type o).

(** What every reachable store satisfies when the tally is guarded:
    the tables of issues, rounds and options are well formed, every round
    has its three options, accepted options are options that exist, and
    an issue has one round without accepted option unless it is settled,
    and then none. *)
Definition round_structure (db : DB) : Prop :=
  wf_issues db ∧ wf_votings db ∧ wf_options db
  ∧ (∀ v, v ∈ votings db → has_fixed_options (voting_pk v) db)
  ∧ (∀ v o, v ∈ votings db → voting_accepted_option v = Some o →
            (o < option_seq db)%nat).

Definition round_count (db : DB) : Prop :=
  ∀ issue, Some issue ∈ issue_pk <$> issues db →
    length (open_rounds issue db) = if decide (settled issue db)
                                    then 0%nat else 1%nat.

Definition round_invariant (db : DB) : Prop :=
  round_structure db ∧ round_count db.

(** The count for every issue but [issue0], for the store between the
    two writes of a tally. *)
Definition round_count_except (issue0 : nat) (db : DB) : Prop :=
  ∀ issue, issue ≠ issue0 → Some issue ∈ issue_pk <$> issues db →
    length (open_rounds issue db) = if decide (settled issue db)
                                    then 0%nat else 1%nat.

(** What every reachable store satisfies, whether the tally is guarded
    or not: the tables are well formed, every round has its three
    options, and every issue has a round. *)
Definition store_invariant (db : DB) : Prop :=
  round_structure db ∧ wf_votes db
  ∧ ∀ issue, Some issue ∈ issue_pk <$> issues db →
             issue ∈ voting_issue <$> votings db.

(** ** A small store to evaluate the methods on

    One issue of group 1 about user 11, its first round with the three
    options (primary keys 0, 1, 2), and the votes given. *)

Definition example_issue : Issue :=
  mkIssue None 1 10 ONGOING None "conflict"%string (Some 11%nat).

Definition example_round : Voting := mkVoting 0 0 604800000100 None.

Definition example_options : list Option :=
  [mkOption 0 0 FURTHER_DISCUSSION None;
   mkOption 1 0 NO_CHANGE None;
   mkOption 2 0 REMOVE_USER None].

Definition example_db (votes : list Vote) : DB :=
  mkDB [mkIssue (Some 0%nat) 1 10 ONGOING None "conflict"%string (Some 11%nat)]
       [example_round] example_options votes [(1%nat, 11%nat)] []
       1 1 3 (length votes) [].

(** The votes of [user] with scores [a], [b], [c] on the three options. *)
Definition example_votes (user first_pk : nat) (a b c : Z) : list Vote :=
  [mkVote first_pk user 0 a;
   mkVote (first_pk + 1) user 1 b;
   mkVote (first_pk + 2) user 2 c].


(** * Properties *)

(** ** The monad's equations *)

Lemma bind_ok {A B} (m : M A) (k : A → M B) db a db' :
  m db = (Ok a, db') → bind m k db = k a db'.
Proof. unfold bind. intros ->. reflexivity. Qed.

Lemma bind_raise {A B} (m : M A) (k : A → M B) db e db' :
  m db = (Raise e, db') → bind m k db = (Raise e, db').
Proof. unfold bind. intros ->. reflexivity. Qed.

Lemma bind_ret {A B} (a : A) (k : A → M B) db : bind (ret a) k db = k a db.
Proof. reflexivity. Qed.

Lemma bind_gets {A B} (f : DB → A) (k : A → M B) db :
  bind (gets f) k db = k (f db) db.
Proof. reflexivity. Qed.

Lemma bind_modify {B} (f : DB → DB) (k : unit → M B) db :
  bind (modify f) k db = k tt (f db).
Proof. reflexivity. Qed.

Lemma bind_emit {B} e (k : unit → M B) db :
  bind (emit e) k db = k tt (set_log (λ l, l ++ [e]) db).
Proof. reflexivity. Qed.

Lemma bind_assoc {A B C} (m : M A) (k1 : A → M B) (k2 : B → M C) db :
  bind (bind m k1) k2 db = bind m (λ a, bind (k1 a) k2) db.
Proof. unfold bind. by destruct (m db) as [[a|e] db']. Qed.

Ltac step :=
  repeat first
    [ rewrite bind_ret | rewrite bind_gets | rewrite bind_modify
    | rewrite bind_emit ].

(** Case analysis on the rows a [get] finds. *)
Ltac case_get :=
  match goal with
  | |- context [match filter ?P ?l with _ => _ end] =>
      destruct (filter P l) as [|? [|? ?]]
  end.

(** ** Tables *)

Section Table.
Context {A K : Type} `{EqDecision K} (key : A → K).

Lemma update_row_keys new l : key <$> update_row key new l = key <$> l.
Proof.
  unfold update_row. rewrite <- list_fmap_compose.
  apply list_fmap_ext. intros _ r _. simpl.
  by destruct (decide (key r = key new)) as [->|].
Qed.

Lemma update_row_elem new l x :
  x ∈ l → key x = key new → new ∈ update_row key new l.
Proof.
  intros Hx Hk. unfold update_row. apply list_elem_of_fmap.
  exists x. split; [|exact Hx]. by rewrite decide_True.
Qed.

Lemma update_row_inv new l r :
  r ∈ update_row key new l → r = new ∨ (r ∈ l ∧ key r ≠ key new).
Proof.
  unfold update_row. intros (x & -> & Hx)%list_elem_of_fmap.
  destruct (decide (key x = key new)); auto.
Qed.

Lemma update_row_other new l r :
  r ∈ l → key r ≠ key new → r ∈ update_row key new l.
Proof.
  intros Hr Hne. unfold update_row. apply list_elem_of_fmap.
  exists r. split; [|exact Hr]. by rewrite decide_False.
Qed.

Lemma filter_key_none (k : K) l :
  k ∉ key <$> l → filter (λ y, key y = k) l = [].
Proof.
  induction l as [|y l IH]; simpl; intros Hk; [reflexivity|].
  rewrite not_elem_of_cons in Hk. destruct Hk as [Hne Hk].
  rewrite filter_cons_False by congruence. by apply IH.
Qed.

Lemma filter_key_unique l x :
  NoDup (key <$> l) → x ∈ l → filter (λ y, key y = key x) l = [x].
Proof.
  induction l as [|y l IH]; simpl; intros Hnd Hx.
  - by apply elem_of_nil in Hx.
  - apply NoDup_cons in Hnd as [Hy Hnd].
    apply elem_of_cons in Hx as [->|Hx].
    + rewrite filter_cons_True by reflexivity.
      by rewrite filter_key_none.
    + rewrite filter_cons_False; [by apply IH|].
      intros E. apply Hy. rewrite E. by apply list_elem_of_fmap_2.
Qed.

Lemma filter_key_updated new l x :
  NoDup (key <$> l) → x ∈ l → key x = key new →
  filter (λ y, key y = key new) (update_row key new l) = [new].
Proof.
  intros Hnd Hx Hk. apply filter_key_unique.
  - by rewrite update_row_keys.
  - by eapply update_row_elem.
Qed.

End Table.

Lemma filter_none {A} (P : A → Prop) `{∀ x, Decision (P x)} (l : list A) :
  (∀ x, x ∈ l → ¬ P x) → filter P l = [].
Proof.
  induction l as [|y l IH]; intros Hl; [reflexivity|].
  rewrite filter_cons_False by (apply Hl; apply elem_of_cons; by left).
  apply IH. intros x Hx. apply Hl. apply elem_of_cons. by right.
Qed.

Lemma get_voting_ok v db :
  NoDup (voting_pk <$> votings db) → v ∈ votings db →
  get_voting (voting_pk v) db = (Ok v, db).
Proof.
  intros Hnd Hv. unfold get_voting, bind, gets.
  by rewrite (filter_key_unique voting_pk _ _ Hnd Hv).
Qed.

Lemma get_issue_ok i pk db :
  NoDup (issue_pk <$> issues db) → i ∈ issues db → issue_pk i = Some pk →
  get_issue pk db = (Ok i, db).
Proof.
  intros Hnd Hi Hpk. unfold get_issue, bind, gets.
  rewrite <- Hpk. by rewrite (filter_key_unique issue_pk _ _ Hnd Hi).
Qed.

Lemma lookup_voting_elem v db :
  NoDup (voting_pk <$> votings db) → v ∈ votings db →
  lookup_voting (voting_pk v) db = Some v.
Proof.
  intros Hnd Hv. unfold lookup_voting.
  by rewrite (filter_key_unique voting_pk _ _ Hnd Hv).
Qed.

Lemma lookup_issue_elem i pk db :
  NoDup (issue_pk <$> issues db) → i ∈ issues db → issue_pk i = Some pk →
  lookup_issue pk db = Some i.
Proof.
  intros Hnd Hi Hpk. unfold lookup_issue.
  rewrite <- Hpk. by rewrite (filter_key_unique issue_pk _ _ Hnd Hi).
Qed.

(** ** The order of the tally *)

Lemma sum_score_leb_total a b :
  sum_score_leb a b = true ∨ sum_score_leb b a = true.
Proof.
  destruct a as [x|], b as [y|]; simpl; destruct NULLS_LAST; auto.
  all: destruct (Z.leb_spec x y), (Z.leb_spec y x); auto; lia.
Qed.

Lemma sum_score_leb_refl a : sum_score_leb a a = true.
Proof. destruct (sum_score_leb_total a a); assumption. Qed.

Lemma sum_score_leb_trans a b c :
  sum_score_leb a b = true → sum_score_leb b c = true →
  sum_score_leb a c = true.
Proof.
  destruct a as [x|], b as [y|], c as [z|]; simpl;
    destruct NULLS_LAST; simpl; try congruence.
  all: rewrite !Z.leb_le; lia.
Qed.

Lemma sum_score_leb_antisym a b :
  sum_score_leb a b = true → sum_score_leb b a = true → a = b.
Proof.
  destruct a as [x|], b as [y|]; simpl;
    destruct NULLS_LAST; simpl; try congruence.
  all: rewrite !Z.leb_le; intros; f_equal; lia.
Qed.

#[local] Instance sum_score_le_trans : Transitive sum_score_le.
Proof. intros a b c. apply sum_score_leb_trans. Qed.

Lemma insert_by_sum_score_perm o l : insert_by_sum_score o l ≡ₚ o :: l.
Proof.
  induction l as [|o' l IH]; simpl; [reflexivity|].
  destruct (sum_score_leb _ _); [reflexivity|].
  rewrite IH. apply Permutation_swap.
Qed.

Lemma order_by_sum_score_perm l : order_by_sum_score l ≡ₚ l.
Proof.
  induction l as [|o l IH]; simpl; [reflexivity|].
  rewrite insert_by_sum_score_perm. by rewrite IH.
Qed.

Lemma insert_by_sum_score_sorted o l :
  StronglySorted sum_score_le l →
  StronglySorted sum_score_le (insert_by_sum_score o l).
Proof.
  induction 1 as [|o' l Hs IH Hall]; simpl.
  - repeat constructor.
  - destruct (sum_score_leb (option_sum_score o) (option_sum_score o')) eqn:E.
    + constructor; [by constructor|].
      constructor; [exact E|].
      eapply Forall_impl; [exact Hall|].
      intros x Hx. by etrans.
    + constructor; [exact IH|].
      rewrite insert_by_sum_score_perm. constructor; [|exact Hall].
      destruct (sum_score_leb_total (option_sum_score o) (option_sum_score o'));
        [congruence|assumption].
Qed.

Lemma order_by_sum_score_sorted l :
  StronglySorted sum_score_le (order_by_sum_score l).
Proof.
  induction l as [|o l IH]; simpl; [constructor|].
  by apply insert_by_sum_score_sorted.
Qed.

(** A list of at least two elements ends in its last two. *)
Lemma two_last {A} (l : list A) :
  (2 ≤ length l)%nat → ∃ l' y z, l = l' ++ [y; z].
Proof.
  intros Hlen.
  destruct (rev l) as [|z [|y r]] eqn:E.
  - apply (f_equal length) in E. rewrite length_rev in E. simpl in E. lia.
  - apply (f_equal length) in E. rewrite length_rev in E. simpl in E. lia.
  - exists (rev r), y, z.
    rewrite <- (rev_involutive l), E. simpl. by rewrite <- app_assoc.
Qed.

Lemma index_from_end_1 {A} (l : list A) y z db :
  index_from_end (l ++ [y; z]) 1 db = (Ok z, db).
Proof.
  unfold index_from_end. rewrite length_app. simpl.
  destruct (Nat.ltb_spec (length l + 2) 1); [lia|].
  replace (length l + 2 - 1)%nat with (length l + 1)%nat by lia.
  rewrite lookup_app_r by lia.
  replace (length l + 1 - length l)%nat with 1%nat by lia. reflexivity.
Qed.

Lemma index_from_end_2 {A} (l : list A) y z db :
  index_from_end (l ++ [y; z]) 2 db = (Ok y, db).
Proof.
  unfold index_from_end. rewrite length_app. simpl.
  destruct (Nat.ltb_spec (length l + 2) 2); [lia|].
  replace (length l + 2 - 2)%nat with (length l) by lia.
  rewrite lookup_app_r by lia.
  rewrite Nat.sub_diag. reflexivity.
Qed.

Lemma accepted_of_last_two l y z db :
  accepted_of (l ++ [y; z]) db =
  if bool_decide (option_sum_score y = option_sum_score z)
  then next_further_discussion (l ++ [y; z]) db
  else (Ok z, db).
Proof.
  unfold accepted_of.
  rewrite (bind_ok _ _ _ _ _ (index_from_end_1 l y z db)).
  rewrite (bind_ok _ _ _ _ _ (index_from_end_2 l y z db)).
  by destruct (bool_decide _).
Qed.

Lemma sorted_last_two l y z :
  StronglySorted sum_score_le (l ++ [y; z]) →
  sum_score_le y z ∧ Forall (λ x, sum_score_le x y) l.
Proof.
  induction l as [|x l IH]; simpl; intros Hs.
  - inversion Hs as [|? ? _ Hall]; subst.
    apply Forall_cons in Hall as [Hyz _]. by split.
  - inversion Hs as [|? ? Hs' Hall]; subst.
    destruct (IH Hs') as [Hyz Hl]. split; [exact Hyz|].
    constructor; [|exact Hl].
    rewrite Forall_app in Hall. destruct Hall as [_ Hall].
    by apply Forall_cons in Hall as [Hxy _].
Qed.

(** When two different options share the greatest key of an ordered
    list, the code takes the tie branch. *)
Lemma accepted_of_tie l a b db :
  StronglySorted sum_score_le l →
  NoDup (option_pk <$> l) →
  a ∈ l → b ∈ l → option_pk a ≠ option_pk b →
  option_sum_score a = option_sum_score b →
  (∀ o, o ∈ l → sum_score_le o a) →
  accepted_of l db = next_further_discussion l db.
Proof.
  intros Hs Hnd Ha Hb Hab Heq Hmax.
  destruct (two_last l) as (l' & y & z & ->).
  { destruct l as [|x [|x' l]]; simpl; try lia.
    - by apply elem_of_nil in Ha.
    - apply list_elem_of_singleton in Ha, Hb. congruence. }
  rewrite accepted_of_last_two.
  destruct (sorted_last_two _ _ _ Hs) as [Hyz Hl].
  assert (Hzy : sum_score_le z y).
  { assert (Hin : ∀ x, x ∈ l' ++ [y; z] → option_pk x ≠ option_pk z →
                       sum_score_le x y).
    { intros x Hx Hne. rewrite elem_of_app in Hx. destruct Hx as [Hx|Hx].
      - rewrite Forall_forall in Hl. by apply Hl.
      - apply elem_of_cons in Hx as [->|Hx]; [apply sum_score_leb_refl|].
        apply list_elem_of_singleton in Hx. congruence. }
    assert (Hza : sum_score_le z a).
    { apply Hmax. apply elem_of_app. right. apply elem_of_cons. right.
      by apply list_elem_of_singleton. }
    destruct (decide (option_pk a = option_pk z)) as [Haz|Haz].
    - etrans; [exact Hza|]. unfold sum_score_le. rewrite Heq.
      apply (Hin b Hb). congruence.
    - etrans; [exact Hza|]. by apply Hin. }
  rewrite bool_decide_eq_true_2; [reflexivity|].
  by apply sum_score_leb_antisym.
Qed.


(** ** What the option actions write *)

Lemma for_each_options_create {A} (f : A → OptionTypes) voting (l : list A) db :
  for_each l (λ option,
    do _o <- options_create voting (f option) in ret tt) db =
  (Ok tt,
   mkDB (issues db) (votings db)
        (options db ++ fresh_options (option_seq db) voting (f <$> l))
        (votes db) (memberships db) (history db) (issue_seq db)
        (voting_seq db) (option_seq db + length l) (vote_seq db) (log db)).
Proof.
  revert db. induction l as [|o l IH]; intros db.
  - destruct db. simpl. unfold ret. by rewrite app_nil_r, Nat.add_0_r.
  - simpl. unfold bind at 1. unfold bind at 1.
    unfold options_create, bind, gets, modify, ret. simpl.
    rewrite IH. simpl. rewrite <- app_assoc. simpl.
    do 3 f_equal. lia.
Qed.

Lemma create_options_eq self db :
  create_options self db =
  (Ok tt,
   mkDB (issues db) (votings db)
        (options db ++ fresh_options (option_seq db) (voting_pk self)
                         [FURTHER_DISCUSSION; NO_CHANGE; REMOVE_USER])
        (votes db) (memberships db) (history db) (issue_seq db)
        (voting_seq db) (option_seq db + 3) (vote_seq db) (log db)).
Proof.
  unfold create_options.
  rewrite (for_each_options_create (λ t, t)). by rewrite list_fmap_id.
Qed.

Lemma votings_create_eq issue now db :
  votings_create issue now db =
  (Ok (mkVoting (voting_seq db) issue (voting_expiration_time now) None),
   mkDB (issues db)
        (votings db ++ [mkVoting (voting_seq db) issue
                          (voting_expiration_time now) None])
        (options db) (votes db) (memberships db) (history db) (issue_seq db)
        (S (voting_seq db)) (option_seq db) (vote_seq db) (log db)).
Proof. reflexivity. Qed.

Lemma _further_discussion_eq now o v db :
  get_voting (option_voting o) db = (Ok v, db) →
  _further_discussion now o db =
  (Ok tt,
   mkDB (issues db)
        (votings db ++ [mkVoting (voting_seq db) (voting_issue v)
                          (voting_expiration_time now) None])
        (options db ++ fresh_options (option_seq db) (voting_seq db)
                         (option_type <$> voting_options (voting_pk v) db))
        (votes db) (memberships db) (history db) (issue_seq db)
        (S (voting_seq db))
        (option_seq db + length (voting_options (voting_pk v) db))
        (vote_seq db) (log db)).
Proof.
  intros Hv. unfold _further_discussion.
  rewrite (bind_ok _ _ _ _ _ Hv).
  rewrite (bind_ok _ _ _ _ _ (votings_create_eq _ _ _)).
  step. by rewrite for_each_options_create.
Qed.

Lemma do_action_further_discussion now o v db :
  get_voting (option_voting o) db = (Ok v, db) →
  option_type o = FURTHER_DISCUSSION →
  do_action now o db =
  (Ok tt,
   mkDB (issues db)
        (votings db ++ [mkVoting (voting_seq db) (voting_issue v)
                          (voting_expiration_time now) None])
        (options db ++ fresh_options (option_seq db) (voting_seq db)
                         (option_type <$> voting_options (voting_pk v) db))
        (votes db) (memberships db) (history db) (issue_seq db)
        (S (voting_seq db))
        (option_seq db + length (voting_options (voting_pk v) db))
        (vote_seq db)
        (log db ++ [issue_changed SenderOption (voting_issue v)])).
Proof.
  intros Hv Ht. unfold do_action.
  rewrite (bind_ok _ _ _ _ _ Hv).
  rewrite Ht. simpl. step.
  by rewrite (bind_ok _ _ _ _ _ (_further_discussion_eq now o v db Hv)).
Qed.

Lemma get_voting_state pk db : (get_voting pk db).2 = db.
Proof. unfold get_voting. step. by case_get. Qed.

Lemma get_issue_state pk db : (get_issue pk db).2 = db.
Proof. unfold get_issue. step. by case_get. Qed.

Lemma get_membership_state group user db :
  (get_membership group user db).2 = db.
Proof. unfold get_membership. step. by case_get. Qed.

(** Case analysis on a computation that leaves the store as it is: either
    the rest runs on the same store, or the exception ends the run. *)
Ltac case_run H :=
  match type of H with
  | (?m ?db).2 = ?db =>
      let E := fresh "E" in
      let Hs := fresh "Hs" in
      pose proof H as Hs;
      destruct (m db) as [[?a|?e] ?db'] eqn:E; simpl in Hs; subst;
      [ rewrite (bind_ok _ _ _ _ _ E)
      | rewrite (bind_raise _ _ _ _ _ E); try reflexivity ]
  end.

Lemma Issue_save_existing now self pk db :
  issue_pk self = Some pk →
  Exists (λ r, issue_pk r = Some pk) (issues db) →
  issue_votings pk db ≠ [] →
  Issue_save now self db = (Ok pk, set_issues (update_row issue_pk self) db).
Proof.
  intros Hpk Hex Hv. unfold Issue_save, Issue_super_save.
  rewrite Hpk. rewrite bind_assoc. step.
  rewrite bool_decide_eq_true_2 by exact Hex.
  rewrite bind_assoc. step.
  replace (issue_votings pk (set_issues (update_row issue_pk self) db))
    with (issue_votings pk db) by reflexivity.
  destruct (issue_votings pk db) as [|v l]; [done|].
  simpl. by step.
Qed.

Lemma Issue_decide_eq now issue pk db :
  issue_pk issue = Some pk →
  issue ∈ issues db →
  issue_votings pk db ≠ [] →
  Issue_decide now issue db =
  (Ok tt, set_issues (update_row issue_pk (with_status issue DECIDED now)) db).
Proof.
  intros Hpk Hin Hv. unfold Issue_decide.
  rewrite (bind_ok _ _ _ _ _
    (Issue_save_existing now (with_status issue DECIDED now) pk db Hpk
       ltac:(apply Exists_exists; by exists issue) Hv)).
  reflexivity.
Qed.

Lemma _remove_user_core o db : core (_remove_user o db).2 = core db.
Proof.
  unfold _remove_user.
  case_run (get_voting_state (option_voting o) db).
  case_run (get_issue_state (voting_issue a) db).
  case_run (get_membership_state (issue_group a0) (issue_affected_user a0) db).
  reflexivity.
Qed.

Lemma _remove_user_log o db : log (_remove_user o db).2 = log db.
Proof.
  unfold _remove_user.
  case_run (get_voting_state (option_voting o) db).
  case_run (get_issue_state (voting_issue a) db).
  case_run (get_membership_state (issue_group a0) (issue_affected_user a0) db).
  reflexivity.
Qed.

(** The action of an option that is not [further_discussion]: the issue
    is decided, and nothing else in the core changes, whether or not
    removing the membership succeeds. *)
Lemma do_action_decides_eq now o v issue db :
  get_voting (option_voting o) db = (Ok v, db) →
  v ∈ votings db →
  issue ∈ issues db →
  NoDup (issue_pk <$> issues db) →
  issue_pk issue = Some (voting_issue v) →
  option_type o ≠ FURTHER_DISCUSSION →
  do_action now o db =
  (run when (bool_decide (option_type o = REMOVE_USER)) (_remove_user o)
   in emit (issue_changed SenderOption (voting_issue v)))
    (set_issues (update_row issue_pk (with_status issue DECIDED now)) db).
Proof.
  intros Hv Hin Hi Hnd Hpk Ht. unfold do_action.
  rewrite (bind_ok _ _ _ _ _ Hv).
  rewrite bool_decide_eq_true_2 by exact Ht.
  rewrite bool_decide_eq_false_2 by exact Ht.
  unfold when at 1. rewrite bind_assoc.
  rewrite (bind_ok _ _ _ _ _ (get_issue_ok _ _ _ Hnd Hi Hpk)).
  assert (Hvs : issue_votings (voting_issue v) db ≠ []).
  { intros E. assert (Hm : v ∈ issue_votings (voting_issue v) db).
    { unfold issue_votings. by apply list_elem_of_filter. }
    rewrite E in Hm. by apply elem_of_nil in Hm. }
  by rewrite (bind_ok _ _ _ _ _ (Issue_decide_eq now issue _ db Hpk Hi Hvs)).
Qed.

Lemma do_action_decides now o v issue db :
  get_voting (option_voting o) db = (Ok v, db) →
  v ∈ votings db →
  issue ∈ issues db →
  NoDup (issue_pk <$> issues db) →
  issue_pk issue = Some (voting_issue v) →
  option_type o ≠ FURTHER_DISCUSSION →
  core (do_action now o db).2 =
    core (set_issues (update_row issue_pk (with_status issue DECIDED now)) db)
  ∧ (option_type o = NO_CHANGE → (do_action now o db).1 = Ok tt).
Proof.
  intros Hv Hin Hi Hnd Hpk Ht.
  rewrite (do_action_decides_eq now o v issue db Hv Hin Hi Hnd Hpk Ht).
  set (db_d := set_issues _ db).
  destruct (option_type o) eqn:E; simpl.
  - done.
  - step. split; [reflexivity|done].
  - unfold bind. pose proof (_remove_user_core o db_d) as Hc.
    destruct (_remove_user o db_d) as [[[]|e] db']; simpl in *;
      (split; [exact Hc|done]).
Qed.

(** ** The tally *)

Lemma for_each_Option_save l db :
  for_each l Option_save db = (Ok tt, set_options (saved_options l) db).
Proof.
  revert db. induction l as [|o l IH]; intros db.
  - by destruct db.
  - simpl. unfold Option_save at 1. step. rewrite IH. by destruct db.
Qed.

(** The options of a round as the tally sees them. *)
Lemma tally_options_elem self db x :
  x ∈ order_by_sum_score (annotate db <$> voting_options (voting_pk self) db) ↔
  ∃ o, o ∈ voting_options (voting_pk self) db ∧ x = annotate db o.
Proof.
  rewrite order_by_sum_score_perm, list_elem_of_fmap.
  split; intros (o & H1 & H2); exists o; by split.
Qed.

Lemma voting_options_elem voting db o :
  o ∈ voting_options voting db ↔ o ∈ options db ∧ option_voting o = voting.
Proof. unfold voting_options. rewrite list_elem_of_filter. tauto. Qed.

Lemma tally_options_pk_NoDup self db :
  NoDup (option_pk <$> options db) →
  NoDup (option_pk <$>
    order_by_sum_score (annotate db <$> voting_options (voting_pk self) db)).
Proof.
  intros Hnd. rewrite order_by_sum_score_perm.
  rewrite <- list_fmap_compose.
  rewrite (list_fmap_ext (option_pk ∘ annotate db) option_pk)
    by (intros; reflexivity).
  eapply sublist_NoDup; [exact Hnd|].
  apply fmap_sublist. unfold voting_options. apply sublist_filter.
Qed.

Lemma has_fixed_options_length voting db :
  has_fixed_options voting db → length (voting_options voting db) = 3%nat.
Proof.
  intros H. apply Permutation_length in H.
  by rewrite length_fmap in H.
Qed.

Lemma has_fixed_options_further_discussion voting db :
  has_fixed_options voting db →
  ∃ fd, fd ∈ voting_options voting db ∧ option_type fd = FURTHER_DISCUSSION.
Proof.
  intros H.
  assert (Hin : FURTHER_DISCUSSION ∈ option_type <$> voting_options voting db).
  { rewrite H. apply elem_of_cons. by left. }
  apply list_elem_of_fmap in Hin as (fd & Ht & Hfd). by exists fd.
Qed.

Lemma next_further_discussion_ok self db db' :
  has_fixed_options (voting_pk self) db →
  ∃ fd, fd ∈ voting_options (voting_pk self) db
        ∧ option_type fd = FURTHER_DISCUSSION
        ∧ next_further_discussion
            (order_by_sum_score
               (annotate db <$> voting_options (voting_pk self) db)) db'
          = (Ok (annotate db fd), db').
Proof.
  intros H. destruct (has_fixed_options_further_discussion _ _ H) as (fd0 & Hfd0 & Ht0).
  unfold next_further_discussion.
  destruct (filter _ (order_by_sum_score _)) as [|x l] eqn:E.
  - exfalso.
    assert (Hm : annotate db fd0 ∈
      filter (λ o, option_type o = FURTHER_DISCUSSION)
        (order_by_sum_score (annotate db <$> voting_options (voting_pk self) db))).
    { apply list_elem_of_filter. split; [exact Ht0|].
      apply tally_options_elem. by exists fd0. }
    rewrite E in Hm. by apply elem_of_nil in Hm.
  - assert (Hm : x ∈ x :: l) by (apply elem_of_cons; by left).
    rewrite <- E in Hm. apply list_elem_of_filter in Hm as [Ht Hx].
    apply tally_options_elem in Hx as (fd & Hfd & ->).
    exists fd. done.
Qed.

Lemma calculate_results_eq now self db acc :
  let opts :=
    order_by_sum_score (annotate db <$> voting_options (voting_pk self) db) in
  let db1 := set_options (saved_options opts) db in
  accepted_of opts db1 = (Ok acc, db1) →
  calculate_results now self db =
  do_action now acc
    (set_votings
       (update_row voting_pk
          (mkVoting (voting_pk self) (voting_issue self)
             (voting_expires_at self) (Some (option_pk acc)))) db1).
Proof.
  intros opts db1 Hacc. unfold calculate_results. step.
  rewrite (bind_ok _ _ _ _ _ (for_each_Option_save _ db)).
  fold opts. fold db1.
  rewrite (bind_ok _ _ _ _ _ Hacc).
  unfold Voting_save. by step.
Qed.

(** The round's own row after its accepted option is saved. *)
Lemma get_voting_saved self acc db1 :
  NoDup (voting_pk <$> votings db1) → self ∈ votings db1 →
  let self' := mkVoting (voting_pk self) (voting_issue self)
                 (voting_expires_at self) (Some acc) in
  let db2 := set_votings (update_row voting_pk self') db1 in
  self' ∈ votings db2
  ∧ NoDup (voting_pk <$> votings db2)
  ∧ get_voting (voting_pk self) db2 = (Ok self', db2).
Proof.
  intros Hnd Hin self' db2.
  assert (Hin' : self' ∈ votings db2).
  { simpl. by apply (update_row_elem voting_pk self' _ self). }
  assert (Hnd' : NoDup (voting_pk <$> votings db2)).
  { simpl. by rewrite update_row_keys. }
  split; [exact Hin'|]. split; [exact Hnd'|].
  exact (get_voting_ok self' db2 Hnd' Hin').
Qed.






(** ** Creating an issue *)

Lemma no_voting_of_next_issue db :
  wf_issues db → wf_votings db → issue_votings (issue_seq db) db = [].
Proof.
  intros (_ & Hi) (_ & Hv). unfold issue_votings.
  apply filter_none. intros v Hin Heq.
  rewrite Forall_forall in Hv. destruct (Hv v Hin) as [_ Hex].
  apply Exists_exists in Hex as (i & Hi' & Hpk).
  rewrite Forall_forall in Hi. specialize (Hi i Hi').
  unfold issue_pk_below in Hi. rewrite Hpk, Heq in Hi. lia.
Qed.


Lemma no_option_of_next_voting db :
  wf_votings db → wf_options db → voting_options (voting_seq db) db = [].
Proof.
  intros (_ & Hv) (_ & Ho). unfold voting_options.
  apply filter_none. intros o Hin Heq.
  rewrite Forall_forall in Ho. destruct (Ho o Hin) as [_ Hex].
  apply Exists_exists in Hex as (v & Hv' & Hpk).
  rewrite Forall_forall in Hv. destruct (Hv v Hv') as [Hlt _].
  rewrite Hpk, Heq in Hlt. lia.
Qed.

Lemma wf_no_option_of_next_voting db :
  wf db → voting_options (voting_seq db) db = [].
Proof. intros (_ & Hv & Ho & _). by apply no_option_of_next_voting. Qed.

Lemma Issue_save_new now self db :
  issue_pk self = None →
  issue_votings (issue_seq db) db = [] →
  Issue_save now self db =
  (Ok (issue_seq db),
   mkDB (issues db ++ [mkIssue (Some (issue_seq db)) (issue_group self)
                         (issue_created_by self) (issue_status self)
                         (issue_status_changed_at self) (issue_topic self)
                         (issue_affected_user self)])
        (votings db ++ [mkVoting (voting_seq db) (issue_seq db)
                          (voting_expiration_time now) None])
        (options db ++ fresh_options (option_seq db) (voting_seq db)
                         [FURTHER_DISCUSSION; NO_CHANGE; REMOVE_USER])
        (votes db) (memberships db) (history db) (S (issue_seq db))
        (S (voting_seq db)) (option_seq db + 3) (vote_seq db)
        (log db ++ [stats_issue_created (issue_seq db);
                    issue_changed SenderIssue (issue_seq db)])).
Proof.
  intros Hpk Hnone. unfold Issue_save, Issue_super_save. rewrite Hpk.
  rewrite bind_assoc. step. rewrite bind_assoc. step.
  rewrite bind_assoc. step. step.
  match goal with
  | |- context [length (issue_votings ?pk ?d)] =>
      replace (issue_votings pk d) with (issue_votings (issue_seq db) db)
        by reflexivity
  end.
  rewrite Hnone. simpl length. simpl Nat.eqb. unfold when at 1.
  rewrite bind_assoc.
  rewrite (bind_ok _ _ _ _ _ (votings_create_eq _ _ _)).
  rewrite (bind_ok _ _ _ _ _ (create_options_eq _ _)).
  rewrite bool_decide_eq_true_2 by done. unfold when.
  rewrite bind_assoc. step. unfold ret, set_log. simpl.
  by rewrite <- app_assoc.
Qed.



(** ** Expiry *)

(** C9, as amended.  [is_expired] holds exactly when the current time is
    strictly after the expiry timestamp. *)
Theorem is_expired_iff_strictly_after now self :
  is_expired now self = true ↔ (voting_expires_at self < now)%Z.
Proof. unfold is_expired. apply Z.ltb_lt. Qed.

(** ** Further discussion *)

Lemma fresh_options_types seq voting types :
  option_type <$> fresh_options seq voting types = types.
Proof.
  revert seq. induction types as [|t ts IH]; intros seq; simpl; [done|].
  by rewrite IH.
Qed.

Lemma fresh_options_Forall seq voting types :
  Forall (λ o, option_voting o = voting ∧ option_sum_score o = None
               ∧ (seq ≤ option_pk o)%nat)
         (fresh_options seq voting types).
Proof.
  revert seq. induction types as [|t ts IH]; intros seq; simpl.
  - constructor.
  - constructor; [by repeat split|].
    eapply Forall_impl; [apply IH|]. simpl. intros o (? & ? & ?).
    repeat split; [done|done|lia].
Qed.

Lemma filter_fresh_options seq voting types :
  filter (λ o, option_voting o = voting) (fresh_options seq voting types)
  = fresh_options seq voting types.
Proof.
  revert seq. induction types as [|t ts IH]; intros seq; simpl; [done|].
  rewrite filter_cons_True by reflexivity. by rewrite IH.
Qed.

Lemma next_voting_options_fresh db seq types :
  wf db →
  filter (λ o, option_voting o = voting_seq db)
    (options db ++ fresh_options seq (voting_seq db) types)
  = fresh_options seq (voting_seq db) types.
Proof.
  intros Hwf. rewrite filter_app.
  pose proof (wf_no_option_of_next_voting db Hwf) as Ho.
  unfold voting_options in Ho. rewrite Ho. simpl.
  apply filter_fresh_options.
Qed.

(** C7. When the action of a round's [further_discussion] option runs,
    it returns; a new voting round exists on the same issue, without an
    accepted option; its options are newly created rows, one per type of
    the three fixed types, each with an unset sum score; and no issue row
    changes, so an ongoing issue stays ongoing. *)
Theorem further_discussion_opens_fresh_round now self voting db :
  wf db →
  voting ∈ votings db →
  has_fixed_options (voting_pk voting) db →
  self ∈ voting_options (voting_pk voting) db →
  option_type self = FURTHER_DISCUSSION →
  (do_action now self db).1 = Ok tt
  ∧ (∃ new_voting,
       new_voting ∈ votings (do_action now self db).2
       ∧ (new_voting ∉ votings db)
       ∧ voting_issue new_voting = voting_issue voting
       ∧ voting_accepted_option new_voting = None
       ∧ (option_type <$>
            voting_options (voting_pk new_voting) (do_action now self db).2)
         ≡ₚ [FURTHER_DISCUSSION; NO_CHANGE; REMOVE_USER]
       ∧ Forall (λ o, option_sum_score o = None ∧ o ∉ options db)
           (voting_options (voting_pk new_voting) (do_action now self db).2))
  ∧ issues (do_action now self db).2 = issues db
  ∧ (issue_status <$> lookup_issue (voting_issue voting) db = Some ONGOING →
     issue_status <$>
       lookup_issue (voting_issue voting) (do_action now self db).2
     = Some ONGOING).
Proof.
  intros Hwf Hv Hfix Hself Ht.
  pose proof Hwf as (_ & (Hvnd & Hvall) & (_ & Hoall) & _).
  apply voting_options_elem in Hself as [_ Hsv].
  assert (Hget : get_voting (option_voting self) db = (Ok voting, db)).
  { rewrite Hsv. by apply get_voting_ok. }
  rewrite (do_action_further_discussion now self voting db Hget Ht).
  split; [reflexivity|]. split; [|split; [reflexivity|done]].
  exists (mkVoting (voting_seq db) (voting_issue voting)
            (voting_expiration_time now) None).
  split; [|split; [|split; [reflexivity|split; [reflexivity|]]]].
  - simpl. apply elem_of_app. right. by apply list_elem_of_singleton.
  - intros Hin. rewrite Forall_forall in Hvall.
    destruct (Hvall _ Hin) as [Hlt _]. simpl in Hlt. lia.
  - simpl snd. simpl voting_pk. unfold voting_options. simpl options.
    rewrite !(next_voting_options_fresh db _ _ Hwf).
    rewrite fresh_options_types.
    split; [exact Hfix|].
    eapply Forall_impl; [apply fresh_options_Forall|]. simpl.
    intros o (_ & Hnone & Hge). split; [exact Hnone|].
    intros Hin. rewrite Forall_forall in Hoall.
    destruct (Hoall _ Hin) as [Hlt _]. lia.
Qed.

(** ** Vote submission *)

Lemma Vote_create_ok user k score db :
  Exists (λ o, option_pk o = k) (options db) →
  ¬ Exists (λ w, vote_user w = user ∧ vote_option w = k) (votes db) →
  Vote_create user k score db =
  (Ok (mkVote (vote_seq db) user k score),
   mkDB (issues db) (votings db) (options db)
        (votes db ++ [mkVote (vote_seq db) user k score])
        (memberships db) (history db) (issue_seq db) (voting_seq db)
        (option_seq db) (S (vote_seq db)) (log db)).
Proof.
  intros Ho Hv. unfold Vote_create. step.
  rewrite bool_decide_eq_true_2 by (by split). by step.
Qed.

Lemma outcome_cons_kept d k data rest v :
  d !! k = Some v → vote_score v = data_score data →
  to_create d ((k, data) :: rest) = to_create d rest
  ∧ kept d ((k, data) :: rest) = v :: kept d rest
  ∧ replaced d ((k, data) :: rest) = replaced d rest.
Proof.
  intros Hd Hs. unfold to_create, kept, replaced.
  assert (Hu : unchanged_vote d (k, data) = Some v).
  { unfold unchanged_vote. simpl. rewrite Hd.
    by rewrite bool_decide_eq_true_2. }
  assert (Hr : replaced_vote d (k, data) = None).
  { unfold replaced_vote. simpl. rewrite Hd.
    by rewrite bool_decide_eq_true_2. }
  split; [|split].
  - rewrite filter_cons_False; [done|]. rewrite Hu. intros H. by apply H.
  - simpl. by rewrite Hu.
  - simpl. by rewrite Hr.
Qed.

Lemma outcome_cons_replaced d k data rest v :
  d !! k = Some v → vote_score v ≠ data_score data →
  to_create d ((k, data) :: rest) = (k, data) :: to_create d rest
  ∧ kept d ((k, data) :: rest) = kept d rest
  ∧ replaced d ((k, data) :: rest) = v :: replaced d rest.
Proof.
  intros Hd Hs. unfold to_create, kept, replaced.
  assert (Hu : unchanged_vote d (k, data) = None).
  { unfold unchanged_vote. simpl. rewrite Hd.
    by rewrite bool_decide_eq_false_2. }
  assert (Hr : replaced_vote d (k, data) = Some v).
  { unfold replaced_vote. simpl. rewrite Hd.
    by rewrite bool_decide_eq_false_2. }
  split; [|split].
  - rewrite filter_cons_True; [done|]. rewrite Hu. by intros [? ?].
  - simpl. by rewrite Hu.
  - simpl. by rewrite Hr.
Qed.

Lemma outcome_cons_new d k data rest :
  d !! k = None →
  to_create d ((k, data) :: rest) = (k, data) :: to_create d rest
  ∧ kept d ((k, data) :: rest) = kept d rest
  ∧ replaced d ((k, data) :: rest) = replaced d rest.
Proof.
  intros Hd. unfold to_create, kept, replaced.
  assert (Hu : unchanged_vote d (k, data) = None).
  { unfold unchanged_vote. simpl. by rewrite Hd. }
  assert (Hr : replaced_vote d (k, data) = None).
  { unfold replaced_vote. simpl. by rewrite Hd. }
  split; [|split].
  - rewrite filter_cons_True; [done|]. rewrite Hu. by intros [? ?].
  - simpl. by rewrite Hu.
  - simpl. by rewrite Hr.
Qed.

(** The votes the dict holds for the keys of [rest] are rows of the
    table. *)
Lemma replaced_elem d rest r :
  r ∈ replaced d rest →
  ∃ item, item ∈ rest ∧ d !! item.1 = Some r
          ∧ vote_score r ≠ data_score item.2.
Proof.
  unfold replaced. rewrite list_elem_of_omap. intros (item & Hin & Hr).
  exists item. split; [exact Hin|].
  unfold replaced_vote in Hr. destruct (d !! item.1) as [v|]; [|done].
  destruct (bool_decide (vote_score v = data_score item.2)) eqn:E; [done|].
  apply bool_decide_eq_false in E. by simplify_eq.
Qed.



Lemma loop_ready_replaced_below user d rest db :
  loop_ready user d rest db →
  (vote_seq db) ∉ vote_pk <$> replaced d rest.
Proof.
  intros (_ & Hlt & _ & _ & Hdict) Hin.
  apply list_elem_of_fmap in Hin as (r & Hpk & Hr).
  apply replaced_elem in Hr as (item & Hitem & Hd & _).
  apply (Hdict item r Hitem) in Hd as (Hrin & _).
  rewrite Forall_forall in Hlt. specialize (Hlt r Hrin). lia.
Qed.

Lemma loop_ready_tail user d item rest db :
  loop_ready user d (item :: rest) db → loop_ready user d rest db.
Proof.
  intros (Hnd & Hlt & Hkeys & Hvalid & Hdict).
  split; [exact Hnd|]. split; [exact Hlt|].
  split; [by apply NoDup_cons in Hkeys as [_ ?]|].
  split; [by apply Forall_cons in Hvalid as [_ ?]|].
  intros item' w Hin. apply Hdict. apply elem_of_cons. by right.
Qed.

Lemma NoDup_key_eq {A K} (key : A → K) (l : list A) x y :
  NoDup (key <$> l) → x ∈ l → y ∈ l → key x = key y → x = y.
Proof.
  induction l as [|z l IH]; simpl; intros Hnd Hx Hy Hk.
  - by apply elem_of_nil in Hx.
  - apply NoDup_cons in Hnd as [Hz Hnd].
    apply elem_of_cons in Hx as [->|Hx]; apply elem_of_cons in Hy as [->|Hy].
    + reflexivity.
    + exfalso. apply Hz. rewrite Hk. by apply list_elem_of_fmap_2.
    + exfalso. apply Hz. rewrite <- Hk. by apply list_elem_of_fmap_2.
    + by apply IH.
Qed.

Lemma loop_ready_step user d k data rest db t' :
  loop_ready user d ((k, data) :: rest) db →
  t' `sublist_of` votes db →
  (∀ w, w ∈ votes db → vote_option w ≠ k → w ∈ t') →
  loop_ready user d rest
    (mkDB (issues db) (votings db) (options db)
          (t' ++ [mkVote (vote_seq db) user k (data_score data)])
          (memberships db) (history db) (issue_seq db) (voting_seq db)
          (option_seq db) (S (vote_seq db)) (log db)).
Proof.
  intros (Hnd & Hlt & Hkeys & Hvalid & Hdict) Hsub Hother.
  assert (Hlt' : Forall (λ w, (vote_pk w < vote_seq db)%nat) t').
  { rewrite Forall_forall in Hlt |- *. intros w Hw. apply Hlt.
    by eapply elem_of_sublist. }
  apply NoDup_cons in Hkeys as [Hk Hkeys].
  apply Forall_cons in Hvalid as [_ Hvalid].
  split; [|split; [|split; [exact Hkeys|split; [exact Hvalid|]]]]; simpl.
  - rewrite fmap_app. apply NoDup_app. split; [|split].
    + eapply sublist_NoDup; [exact Hnd|]. by apply fmap_sublist.
    + intros p Hp Hp'. apply list_elem_of_singleton in Hp'. simpl in Hp'.
      apply list_elem_of_fmap in Hp as (w & -> & Hw).
      rewrite Forall_forall in Hlt'. specialize (Hlt' w Hw). lia.
    + apply NoDup_singleton.
  - apply Forall_app. split.
    + eapply Forall_impl; [exact Hlt'|]. simpl. intros; lia.
    + constructor; [simpl; lia|constructor].
  - intros item w Hitem.
    assert (Hne : item.1 ≠ k).
    { intros E. apply Hk. simpl. rewrite <- E. by apply list_elem_of_fmap_2. }
    assert (Hitem' : item ∈ (k, data) :: rest)
      by (apply elem_of_cons; by right).
    rewrite <- (Hdict item w Hitem'). split.
    + intros (Hw & Hu & Ho). apply elem_of_app in Hw as [Hw|Hw].
      * split; [by eapply elem_of_sublist|done].
      * apply list_elem_of_singleton in Hw. subst w. simpl in Ho. congruence.
    + intros (Hw & Hu & Ho). split; [|done].
      apply elem_of_app. left. apply Hother; [exact Hw|congruence].
Qed.

Lemma votes_after_cons_kept user d k data rest seq table v :
  d !! k = Some v → vote_score v = data_score data →
  votes_after user d ((k, data) :: rest) seq table
  = votes_after user d rest seq table.
Proof.
  intros Hd Hs. unfold votes_after.
  destruct (outcome_cons_kept d k data rest v Hd Hs) as (-> & _ & ->).
  reflexivity.
Qed.

Lemma filter_not_in_cons (p : nat) (R : list nat) (table : list Vote) :
  filter (λ w, vote_pk w ∉ R) (filter (λ w, vote_pk w ≠ p) table)
  = filter (λ w, vote_pk w ∉ p :: R) table.
Proof.
  rewrite list_filter_filter. apply list_filter_iff.
  intros w. rewrite not_elem_of_cons. tauto.
Qed.

Lemma filter_keeps_new (R : list nat) (table : list Vote) (nv : Vote) :
  vote_pk nv ∉ R →
  filter (λ w, vote_pk w ∉ R) (table ++ [nv])
  = filter (λ w, vote_pk w ∉ R) table ++ [nv].
Proof.
  intros H. rewrite filter_app. f_equal.
  by rewrite filter_cons_True, filter_nil.
Qed.

(** The loop of [save_votes] in closed form. *)
Lemma save_votes_loop_eq user d rest : ∀ acc db,
  loop_ready user d rest db →
  save_votes_loop user d acc rest db =
  (Ok (acc.1 ++ new_votes user (vote_seq db) (to_create d rest),
       acc.2 ++ kept d rest),
   mkDB (issues db) (votings db) (options db)
        (votes_after user d rest (vote_seq db) (votes db))
        (memberships db) (history db) (issue_seq db) (voting_seq db)
        (option_seq db) (vote_seq db + length (to_create d rest)) (log db)).
Proof.
  induction rest as [|[k data] rest IH]; intros [c e] db Hready.
  - simpl. unfold ret, votes_after, to_create, kept, replaced. simpl.
    rewrite !app_nil_r, Nat.add_0_r.
    replace (filter (λ w, vote_pk w ∉ []) (votes db)) with (votes db).
    + by destruct db.
    + symmetry. induction (votes db) as [|w t IHt]; [done|].
      rewrite filter_cons_True by apply not_elem_of_nil. by rewrite IHt.
  - pose proof Hready as (Hnd & Hlt & Hkeys & Hvalid & Hdict).
    pose proof (Forall_inv Hvalid) as [Hopt Hex]. simpl in Hopt, Hex.
    assert (Hin : (k, data) ∈ (k, data) :: rest)
      by (apply elem_of_cons; by left).
    simpl save_votes_loop. unfold save_votes_body. simpl fst. simpl snd.
    destruct (d !! k) as [v|] eqn:Hd.
    + destruct (decide (vote_score v = data_score data)) as [Hs|Hs].
      * rewrite bool_decide_eq_true_2 by exact Hs. step.
        rewrite (IH (c, e ++ [v]) db (loop_ready_tail _ _ _ _ _ Hready)).
        simpl fst. simpl snd.
        rewrite (votes_after_cons_kept user d k data rest _ _ v Hd Hs).
        destruct (outcome_cons_kept d k data rest v Hd Hs) as (-> & -> & _).
        by rewrite <- app_assoc.
      * rewrite bool_decide_eq_false_2 by exact Hs.
        destruct (outcome_cons_replaced d k data rest v Hd Hs)
          as (Hc & Hk & Hr).
        rewrite Hk. unfold votes_after at 1. rewrite Hc, Hr.
        unfold Vote_delete at 1. rewrite ?bind_assoc. step.
        rewrite ?bind_assoc.
        pose proof (proj2 (Hdict (k, data) v Hin) Hd) as (Hv & Hvu & Hvo).
        simpl in Hvo.
        rewrite (bind_ok _ _ _ _ _
          (Vote_create_ok user (data_option data) (data_score data)
             (set_votes (filter (λ w, vote_pk w ≠ vote_pk v)) db)
             ltac:(rewrite Hopt; exact Hex)
             ltac:(simpl; rewrite Hopt; intros Hx;
                   apply Exists_exists in Hx as (w & Hw & Hwu & Hwo);
                   apply list_elem_of_filter in Hw as [Hne Hw];
                   apply Hne; f_equal;
                   assert (d !! k = Some w)
                     by (apply (Hdict (k, data) w Hin); by repeat split);
                   congruence))).
        step. simpl. rewrite Hopt.
        rewrite (IH _ _ (loop_ready_step user d k data rest db
                   (filter (λ w, vote_pk w ≠ vote_pk v) (votes db)) Hready
                   (sublist_filter _ _)
                   ltac:(intros w Hw Hne; apply list_elem_of_filter;
                         split; [intros E; apply Hne;
                                 rewrite <- Hvo; f_equal;
                                 by apply (NoDup_key_eq vote_pk (votes db))
                                |exact Hw]))).
        unfold votes_after. simpl. rewrite ?Hopt.
        rewrite filter_keeps_new
          by (apply (loop_ready_replaced_below user d rest db);
              by eapply loop_ready_tail).
        rewrite filter_not_in_cons.
        rewrite <- !app_assoc. simpl.
        do 2 f_equal. lia.
    + pose proof (Hdict (k, data)) as Hdk. simpl in Hdk.
      destruct (outcome_cons_new d k data rest Hd) as (Hc & Hk & Hr).
      rewrite Hk. unfold votes_after at 1. rewrite Hc, Hr.
      rewrite ?bind_assoc.
      rewrite (bind_ok _ _ _ _ _
        (Vote_create_ok user (data_option data) (data_score data) db
           ltac:(rewrite Hopt; exact Hex)
           ltac:(rewrite Hopt; intros Hx;
                 apply Exists_exists in Hx as (w & Hw & Hwu & Hwo);
                 assert (d !! k = Some w) by (by apply Hdk);
                 congruence))).
      step. simpl. rewrite Hopt.
      rewrite (IH _ _ (loop_ready_step user d k data rest db _ Hready
                 ltac:(reflexivity) ltac:(by intros))).
      unfold votes_after. simpl. rewrite ?Hopt.
      rewrite filter_keeps_new
        by (apply (loop_ready_replaced_below user d rest db);
            by eapply loop_ready_tail).
      rewrite <- !app_assoc. simpl.
      do 2 f_equal. lia.
Qed.

(** The dict of [save_votes] on a list with one vote per option. *)
Lemma votes_dict_lookup_gen (l : list Vote) : ∀ (m : gmap nat Vote) k w,
  NoDup (vote_option <$> l) →
  foldl (λ d vote, <[vote_option vote := vote]> d) m l !! k = Some w ↔
  (w ∈ l ∧ vote_option w = k)
  ∨ ((k ∉ (vote_option <$> l)) ∧ m !! k = Some w).
Proof.
  induction l as [|x l IH]; intros m k w Hnd; simpl.
  - split.
    + intros H. right. split; [apply not_elem_of_nil|exact H].
    + intros [[H _]|[_ H]]; [by apply elem_of_nil in H|exact H].
  - apply NoDup_cons in Hnd as [Hx Hnd]. rewrite (IH _ k w Hnd).
    rewrite not_elem_of_cons, elem_of_cons. split.
    + intros [[Hw Hk]|[Hk Hm]]; [left; split; [by right|done]|].
      destruct (decide (vote_option x = k)) as [E|E].
      * rewrite E, lookup_insert_eq in Hm. left. split; [left|]; congruence.
      * rewrite lookup_insert_ne in Hm by exact E. right. done.
    + intros [[[->|Hw] Hk]|[[Hk1 Hk2] Hm]].
      * right. split; [by rewrite <- Hk|]. by rewrite Hk, lookup_insert_eq.
      * left. done.
      * right. split; [exact Hk2|]. by rewrite lookup_insert_ne.
Qed.

Lemma votes_dict_lookup (l : list Vote) k w :
  NoDup (vote_option <$> l) →
  votes_dict l !! k = Some w ↔ w ∈ l ∧ vote_option w = k.
Proof.
  intros Hnd. unfold votes_dict. rewrite (votes_dict_lookup_gen l ∅ k w Hnd).
  split; [|by left]. intros [H|[_ H]]; [exact H|].
  by rewrite lookup_empty in H.
Qed.


(** The user's votes of the round carry distinct options. *)
Lemma votes_of_options_NoDup voting user db :
  wf db → NoDup (vote_option <$> votes_of voting user db).
Proof.
  intros (_ & _ & _ & (_ & Huniq & _)). unfold votes_of.
  induction (votes db) as [|w t IH]; [constructor|].
  simpl in Huniq. apply NoDup_cons in Huniq as [Hw Huniq].
  rewrite filter_cons. case_decide as Hc; [|by apply IH].
  simpl. apply NoDup_cons. split; [|by apply IH].
  intros Hin. apply Hw.
  apply list_elem_of_fmap in Hin as (w' & Ho & Hw').
  apply list_elem_of_filter in Hw' as [[_ Hu] Hw'].
  apply list_elem_of_fmap. exists w'. split; [|exact Hw'].
  destruct Hc as [_ Hc]. congruence.
Qed.

Lemma votes_of_elem voting user db w :
  w ∈ votes_of voting user db ↔
  w ∈ votes db ∧ vote_in_voting db voting w ∧ vote_user w = user.
Proof. unfold votes_of. rewrite list_elem_of_filter. tauto. Qed.

Lemma loop_ready_initial self user vote_data db :
  wf db → valid_vote_data self vote_data db →
  loop_ready user (votes_dict (votes_of (voting_pk self) user db))
    vote_data db.
Proof.
  intros Hwf (Hkeys & Hvalid).
  pose proof Hwf as (_ & _ & _ & (Hnd & _ & Hall)).
  split; [exact Hnd|]. split.
  { eapply Forall_impl; [exact Hall|]. by intros w [? _]. }
  split; [exact Hkeys|]. split.
  { eapply Forall_impl; [exact Hvalid|]. intros item [? Hex].
    split; [done|]. apply Exists_exists in Hex as (o & ? & ? & _).
    apply Exists_exists. by exists o. }
  intros item w Hitem.
  rewrite (votes_dict_lookup _ _ _ (votes_of_options_NoDup _ user db Hwf)).
  rewrite votes_of_elem.
  rewrite Forall_forall in Hvalid. destruct (Hvalid item Hitem) as [_ Hex].
  split; [|tauto]. intros (Hw & Hu & Ho). repeat split; try done.
  unfold vote_in_voting. by rewrite Ho.
Qed.

(** [save_votes] in closed form. *)
Lemma save_votes_eq self user vote_data db :
  wf db → valid_vote_data self vote_data db →
  save_votes self user vote_data db =
  (Ok (new_votes user (vote_seq db)
         (to_create (votes_dict (votes_of (voting_pk self) user db)) vote_data)
       ++ kept (votes_dict (votes_of (voting_pk self) user db)) vote_data),
   mkDB (issues db) (votings db) (options db)
        (votes_after user (votes_dict (votes_of (voting_pk self) user db))
           vote_data (vote_seq db) (votes db))
        (memberships db) (history db) (issue_seq db) (voting_seq db)
        (option_seq db)
        (vote_seq db
         + length (to_create
                     (votes_dict (votes_of (voting_pk self) user db))
                     vote_data))
        (log db ++ save_votes_events self
                     (votes_dict (votes_of (voting_pk self) user db))
                     (new_votes user (vote_seq db)
                        (to_create
                           (votes_dict (votes_of (voting_pk self) user db))
                           vote_data)))).
Proof.
  intros Hwf Hvalid. unfold save_votes. step.
  set (d := votes_dict (votes_of (voting_pk self) user db)).
  rewrite (bind_ok _ _ _ _ _
    (save_votes_loop_eq user d vote_data ([], []) db
       (loop_ready_initial self user vote_data db Hwf Hvalid))).
  simpl fst. simpl snd. rewrite ?app_nil_l.
  set (created := new_votes user (vote_seq db) (to_create d vote_data)).
  unfold save_votes_events.
  destruct (size d =? 0)%nat; destruct (0 <? length created)%nat;
    unfold when; step; unfold ret, set_log; simpl;
    rewrite <- ?app_assoc, ?app_nil_r; reflexivity.
Qed.











(** C10. For a user without a vote in the round, [save_votes] with an
    empty [vote_data] returns the empty list, creates no vote, and emits
    the "voted" usage event and nothing else (no "issue changed"); with
    any [vote_data] the first event it emits is the "voted" usage
    event. *)
Theorem first_vote_event_even_without_votes self user db :
  votes_of (voting_pk self) user db = [] →
  save_votes self user [] db
  = (Ok [], set_log (λ l, l ++ [stats_voted (voting_issue self)]) db)
  ∧ ∀ vote_data, wf db → valid_vote_data self vote_data db →
      ∃ ret db' rest,
        save_votes self user vote_data db = (Ok ret, db')
        ∧ log db' = log db ++ stats_voted (voting_issue self) :: rest.
Proof.
  intros Hnone. split.
  - unfold save_votes. step. rewrite Hnone. simpl. by step.
  - intros vote_data Hwf Hvalid.
    eexists _, _, _. split; [exact (save_votes_eq self user vote_data db Hwf Hvalid)|].
    simpl log. unfold save_votes_events. rewrite Hnone. simpl.
    reflexivity.
Qed.

(** *** The store stays well formed *)






(** *** Submitting the same data twice *)





Lemma filter_all {A} (P : A → Prop) `{∀ x, Decision (P x)} (l : list A) :
  (∀ x, x ∈ l → P x) → filter P l = l.
Proof.
  induction l as [|y l IH]; intros Hl; [reflexivity|].
  rewrite filter_cons_True by (apply Hl; apply elem_of_cons; by left).
  f_equal. apply IH. intros x Hx. apply Hl. apply elem_of_cons. by right.
Qed.


(** ** The rounds of an issue *)

(** *** Operations that leave issues, rounds and options alone *)

Lemma Vote_create_core user k score db :
  core (Vote_create user k score db).2 = core db.
Proof.
  unfold Vote_create. step. destruct (bool_decide _); [by step|reflexivity].
Qed.

Lemma save_votes_loop_core user d rest : ∀ acc db,
  core (save_votes_loop user d acc rest db).2 = core db.
Proof.
  induction rest as [|item rest IH]; intros acc db; [reflexivity|].
  simpl. unfold save_votes_body.
  assert (Hcreate : ∀ db0, core db0 = core db →
    core ((do acc' <-
             (do v <- Vote_create user (data_option item.2)
                        (data_score item.2)
              in ret (acc.1 ++ [v], acc.2))
           in save_votes_loop user d acc' rest) db0).2 = core db).
  { intros db0 H0. rewrite bind_assoc. unfold bind at 1.
    pose proof (Vote_create_core user (data_option item.2)
                  (data_score item.2) db0) as Hc.
    destruct (Vote_create _ _ _ db0) as [[v|e] db1]; simpl in Hc.
    - step. rewrite IH. congruence.
    - simpl. congruence. }
  destruct (d !! item.1) as [vote|].
  - destruct (bool_decide _).
    + step. apply IH.
    + rewrite bind_assoc. unfold Vote_delete. step. by apply Hcreate.
  - by apply Hcreate.
Qed.

Lemma save_votes_core self user vote_data db :
  core (save_votes self user vote_data db).2 = core db.
Proof.
  unfold save_votes. step. unfold bind at 1.
  pose proof (save_votes_loop_core user
                (votes_dict (votes_of (voting_pk self) user db))
                vote_data ([], []) db) as Hc.
  destruct (save_votes_loop _ _ _ _ db) as [[r|e] db1]; simpl in Hc;
    [|exact Hc].
  destruct (size _ =? 0)%nat; destruct (0 <? length r.1)%nat;
    unfold when; step; exact Hc.
Qed.

Lemma delete_votes_core self user db :
  core (delete_votes self user db).2 = core db.
Proof.
  unfold delete_votes. step.
  destruct (0 <? length _)%nat; unfold when; step; reflexivity.
Qed.

Lemma round_invariant_core db db' :
  core db' = core db → round_invariant db → round_invariant db'.
Proof.
  destruct db, db'. unfold core. simpl. intros [= -> -> -> -> -> ->] H.
  exact H.
Qed.

(** *** Rows under an update *)

Lemma filter_update_row_out {A K} `{EqDecision K} (key : A → K) (new : A)
    (P : A → Prop) `{∀ x, Decision (P x)} (l : list A) :
  ¬ P new →
  filter P (update_row key new l) = filter (λ r, P r ∧ key r ≠ key new) l.
Proof.
  intros Hnew. unfold update_row.
  induction l as [|r l IH]; [reflexivity|]. rewrite fmap_cons. cbn beta.
  destruct (decide (key r = key new)) as [E|E].
  - rewrite filter_cons_False by exact Hnew.
    rewrite filter_cons_False by (intros [_ ?]; done). exact IH.
  - destruct (decide (P r)) as [HP|HP].
    + rewrite !filter_cons_True by done. by rewrite IH.
    + rewrite !filter_cons_False by (try intros [? _]; done). exact IH.
Qed.

Lemma Exists_update_row {A K} `{EqDecision K} (key : A → K) (new : A)
    (P : A → Prop) (l : list A) x :
  x ∈ l → key x = key new →
  Exists P (update_row key new l)
  ↔ P new ∨ Exists (λ r, P r ∧ key r ≠ key new) l.
Proof.
  intros Hx Hk. rewrite !Exists_exists. split.
  - intros (r & Hr & HP). apply update_row_inv in Hr as [->|[Hr Hne]].
    + by left.
    + right. by exists r.
  - intros [HP|(r & Hr & HP & Hne)].
    + exists new. split; [by eapply update_row_elem|exact HP].
    + exists r. split; [by apply update_row_other|exact HP].
Qed.

Lemma Exists_equiv {A} (P Q : A → Prop) (l : list A) :
  (∀ x, P x ↔ Q x) → Exists P l ↔ Exists Q l.
Proof.
  intros H. rewrite !Exists_exists.
  split; intros (x & Hx & HP); exists x; (split; [exact Hx|by apply H]).
Qed.

(** *** Options that differ in their sum score only *)

Lemma saved_options_keys (l t : list Option) :
  (∀ o r, o ∈ l → r ∈ t → option_pk r = option_pk o →
          option_key r = option_key o) →
  option_key <$> saved_options l t = option_key <$> t.
Proof.
  unfold saved_options. revert t.
  induction l as [|o l IH]; intros t Hl; [reflexivity|]. simpl.
  assert (Hstep : option_key <$> update_row option_pk o t = option_key <$> t).
  { unfold update_row. rewrite <- list_fmap_compose.
    apply list_fmap_ext. intros _ r Hr%list_elem_of_lookup_2. simpl.
    destruct (decide (option_pk r = option_pk o)) as [E|E]; [|done].
    symmetry. apply Hl; [apply elem_of_cons; by left|exact Hr|exact E]. }
  rewrite IH; [exact Hstep|].
  intros o' r Ho' Hr Hpk.
  assert (Hk : option_key r ∈ option_key <$> t).
  { rewrite <- Hstep. by apply list_elem_of_fmap_2. }
  apply list_elem_of_fmap in Hk as (r0 & Hk & Hr0).
  rewrite Hk. apply Hl; [apply elem_of_cons; by right|exact Hr0|].
  unfold option_key in Hk. congruence.
Qed.

Lemma keys_filter_voting (t t' : list Option) v :
  option_key <$> t' = option_key <$> t →
  option_type <$> filter (λ o, option_voting o = v) t'
  = option_type <$> filter (λ o, option_voting o = v) t.
Proof.
  revert t'. induction t as [|r t IH]; intros [|r' t'] H; try done.
  simpl in H. injection H as Hpk Hv Ht H. specialize (IH t' H).
  rewrite !filter_cons. rewrite Hv.
  destruct (decide (option_voting r = v)); [|exact IH].
  rewrite !fmap_cons. by rewrite IH, Ht.
Qed.

Lemma keys_Forall (P : nat * nat * OptionTypes → Prop) (t t' : list Option) :
  option_key <$> t' = option_key <$> t →
  Forall (λ o, P (option_key o)) t → Forall (λ o, P (option_key o)) t'.
Proof.
  intros H HF.
  apply (Forall_fmap option_key P t').
  rewrite H. by apply (Forall_fmap option_key P t).
Qed.

Lemma keys_Exists (P : nat * nat * OptionTypes → Prop) (t t' : list Option) :
  option_key <$> t' = option_key <$> t →
  Exists (λ o, P (option_key o)) t' ↔ Exists (λ o, P (option_key o)) t.
Proof.
  intros H.
  rewrite <- (Exists_fmap option_key P t'), <- (Exists_fmap option_key P t).
  by rewrite H.
Qed.

Lemma keys_pks (t t' : list Option) :
  option_key <$> t' = option_key <$> t →
  option_pk <$> t' = option_pk <$> t.
Proof.
  intros H.
  apply (f_equal (fmap (λ k : nat * nat * OptionTypes, k.1.1))) in H.
  rewrite <- !list_fmap_compose in H. exact H.
Qed.

(** The invariant only looks at the keys of the options. *)
Lemma round_invariant_keys db t' :
  option_key <$> t' = option_key <$> options db →
  round_invariant db → round_invariant (set_options (λ _, t') db).
Proof.
  intros Hk ((Hwi & Hwv & (Hond & Hoall) & Hfix & Hacc) & Hcount).
  split; [split; [exact Hwi|split; [exact Hwv|split; [|split]]]|].
  - split; simpl.
    + by rewrite (keys_pks _ _ Hk).
    + apply (keys_Forall
               (λ k, (k.1.1 < option_seq db)%nat
                     ∧ Exists (λ v, voting_pk v = k.1.2) (votings db))
               (options db) t' Hk).
      exact Hoall.
  - intros v Hv. unfold has_fixed_options, voting_options. simpl.
    rewrite (keys_filter_voting _ _ _ Hk). by apply Hfix.
  - exact Hacc.
  - intros issue Hissue.
    replace (open_rounds issue (set_options (λ _, t') db))
      with (open_rounds issue db) by reflexivity.
    rewrite (Hcount issue Hissue).
    assert (Hs : settled issue (set_options (λ _, t') db) ↔ settled issue db).
    { unfold settled. simpl. apply Exists_equiv. intros v.
      apply and_iff_compat_l. unfold decisive. simpl.
      apply (keys_Exists
               (λ k, voting_accepted_option v = Some k.1.1
                     ∧ k.2 ≠ FURTHER_DISCUSSION) (options db) t' Hk). }
    destruct (decide (settled issue (set_options (λ _, t') db)));
      destruct (decide (settled issue db)); tauto.
Qed.

(** *** The structure of the tables under the writes of the methods *)

Lemma Exists_key {A K} (key : A → K) (k : K) (l : list A) :
  Exists (λ x, key x = k) l ↔ k ∈ key <$> l.
Proof.
  rewrite Exists_exists, list_elem_of_fmap.
  split; intros (x & H1 & H2); exists x; by split.
Qed.

Lemma fresh_options_pks start voting types :
  option_pk <$> fresh_options start voting types = seq start (length types).
Proof.
  revert start.
  induction types as [|t ts IH]; intros start; simpl; [done|].
  by rewrite IH.
Qed.

Lemma structure_append db issue expires_at types :
  round_structure db →
  Some issue ∈ issue_pk <$> issues db →
  types ≡ₚ [FURTHER_DISCUSSION; NO_CHANGE; REMOVE_USER] →
  round_structure (append_round db issue expires_at types).
Proof.
  intros (Hwi & Hwv & Hwo & Hfix & Hacc) Hissue Htypes.
  pose proof Hwv as (Hvnd & Hvall). pose proof Hwo as (Hond & Hoall).
  rewrite Forall_forall in Hvall. rewrite Forall_forall in Hoall.
  split; [exact Hwi|]. split; [|split; [|split]].
  - split; simpl.
    + rewrite fmap_app. apply NoDup_app. split; [exact Hvnd|]. split.
      * intros p (v & -> & Hv)%list_elem_of_fmap Hp.
        apply list_elem_of_singleton in Hp. simpl in Hp.
        destruct (Hvall v Hv) as [Hlt _]. lia.
      * apply NoDup_singleton.
    + apply Forall_app. split.
      * apply Forall_forall. intros v Hv. destruct (Hvall v Hv) as [Hlt Hex].
        split; [lia|exact Hex].
      * apply Forall_singleton. simpl. split; [lia|].
        by apply (Exists_key issue_pk).
  - split; simpl.
    + rewrite fmap_app, fresh_options_pks. apply NoDup_app.
      split; [exact Hond|]. split; [|apply NoDup_seq].
      intros p (o & -> & Ho)%list_elem_of_fmap Hp.
      apply elem_of_seq in Hp. destruct (Hoall o Ho) as [Hlt _]. lia.
    + apply Forall_app. split.
      * apply Forall_forall. intros o Ho. destruct (Hoall o Ho) as [Hlt Hex].
        split; [lia|]. apply Exists_app. by left.
      * apply Forall_forall. intros o Ho.
        assert (Hpk : option_pk o ∈ seq (option_seq db) (length types)).
        { rewrite <- (fresh_options_pks _ (voting_seq db)).
          by apply list_elem_of_fmap_2. }
        apply elem_of_seq in Hpk.
        pose proof (fresh_options_Forall (option_seq db) (voting_seq db) types)
          as HF.
        rewrite Forall_forall in HF. destruct (HF o Ho) as (Hv & _).
        split; [lia|]. apply Exists_app. right.
        apply Exists_cons. left. simpl. by rewrite Hv.
  - intros v Hv. unfold has_fixed_options, voting_options. simpl.
    apply elem_of_app in Hv as [Hv|Hv].
    + rewrite filter_app.
      rewrite (filter_none _ (fresh_options _ _ _)).
      * rewrite app_nil_r. by apply Hfix.
      * intros o Ho Heq.
        pose proof (fresh_options_Forall (option_seq db) (voting_seq db) types)
          as HF.
        rewrite Forall_forall in HF. destruct (HF o Ho) as (Hov & _).
        destruct (Hvall v Hv) as [Hlt _]. lia.
    + apply list_elem_of_singleton in Hv. subst v. simpl.
      rewrite filter_app.
      pose proof (no_option_of_next_voting db Hwv Hwo) as Hnone.
      unfold voting_options in Hnone. rewrite Hnone. simpl.
      by rewrite filter_fresh_options, fresh_options_types.
  - intros v o Hv Ho. simpl. apply elem_of_app in Hv as [Hv|Hv].
    + specialize (Hacc v o Hv Ho). lia.
    + apply list_elem_of_singleton in Hv. subst v. discriminate Ho.
Qed.

Lemma structure_accept db v o :
  round_structure db → v ∈ votings db → (o < option_seq db)%nat →
  round_structure (set_votings (update_row voting_pk (accept v o)) db).
Proof.
  intros (Hwi & Hwv & Hwo & Hfix & Hacc) Hv Ho.
  pose proof Hwv as (Hvnd & Hvall). pose proof Hwo as (Hond & Hoall).
  rewrite Forall_forall in Hvall.
  split; [exact Hwi|]. split; [|split; [|split]].
  - split; simpl.
    + by rewrite update_row_keys.
    + apply Forall_forall.
      intros r [->|[Hr _]]%update_row_inv; [|by apply Hvall].
      simpl. by apply Hvall.
  - split; [exact Hond|]. simpl.
    eapply Forall_impl; [exact Hoall|]. simpl. intros r [Hlt Hex].
    split; [exact Hlt|].
    apply (Exists_key voting_pk). rewrite update_row_keys.
    by apply (Exists_key voting_pk).
  - intros r [->|[Hr _]]%update_row_inv.
    + simpl. exact (Hfix v Hv).
    + exact (Hfix r Hr).
  - intros r o' [->|[Hr _]]%update_row_inv Ho'.
    + simpl in Ho'. injection Ho' as <-. exact Ho.
    + exact (Hacc r o' Hr Ho').
Qed.

Lemma structure_issue_update db new x :
  round_structure db → x ∈ issues db → issue_pk x = issue_pk new →
  round_structure (set_issues (update_row issue_pk new) db).
Proof.
  intros ((Hind & Hiall) & (Hvnd & Hvall) & Hwo & Hfix & Hacc) Hx Hk.
  rewrite Forall_forall in Hiall.
  split; [|split; [|split; [exact Hwo|split; [exact Hfix|exact Hacc]]]].
  - split; simpl.
    + by rewrite update_row_keys.
    + apply Forall_forall.
      intros r [->|[Hr _]]%update_row_inv; [|by apply Hiall].
      specialize (Hiall x Hx). unfold issue_pk_below in *. by rewrite <- Hk.
  - split; [exact Hvnd|]. simpl.
    eapply Forall_impl; [exact Hvall|]. simpl. intros r [Hlt Hex].
    split; [exact Hlt|].
    apply (Exists_key issue_pk). rewrite update_row_keys.
    by apply (Exists_key issue_pk).
Qed.

Lemma structure_issue_append db row :
  round_structure db → issue_pk row = Some (issue_seq db) →
  round_structure
    (set_issue_seq (S (issue_seq db)) (set_issues (λ l, l ++ [row]) db)).
Proof.
  intros ((Hind & Hiall) & (Hvnd & Hvall) & Hwo & Hfix & Hacc) Hpk.
  rewrite Forall_forall in Hiall.
  split; [|split; [|split; [exact Hwo|split; [exact Hfix|exact Hacc]]]].
  - split; simpl.
    + rewrite fmap_app. apply NoDup_app. split; [exact Hind|]. split.
      * intros k (i & -> & Hi)%list_elem_of_fmap Hk.
        apply list_elem_of_singleton in Hk. simpl in Hk.
        specialize (Hiall i Hi). unfold issue_pk_below in Hiall.
        rewrite Hk, Hpk in Hiall. lia.
      * apply NoDup_singleton.
    + apply Forall_app. split.
      * apply Forall_forall. intros i Hi. specialize (Hiall i Hi).
        unfold issue_pk_below in *. destruct (issue_pk i); [lia|done].
      * apply Forall_singleton. unfold issue_pk_below. rewrite Hpk. lia.
  - split; [exact Hvnd|]. simpl.
    eapply Forall_impl; [exact Hvall|]. simpl. intros r [Hlt Hex].
    split; [exact Hlt|]. apply Exists_app. by left.
Qed.

(** *** The number of open rounds under the writes of the methods *)

Lemma decisive_append db issue expires_at types v :
  round_structure db → v ∈ votings db →
  decisive (append_round db issue expires_at types) v ↔ decisive db v.
Proof.
  intros (_ & _ & _ & _ & Hacc) Hv. unfold decisive. simpl.
  rewrite Exists_app. split; [|by left].
  intros [H|H]; [exact H|exfalso].
  apply Exists_exists in H as (o & Ho & Heq & _).
  specialize (Hacc v _ Hv Heq).
  pose proof (fresh_options_Forall (option_seq db) (voting_seq db) types) as HF.
  rewrite Forall_forall in HF. destruct (HF o Ho) as (_ & _ & Hge). lia.
Qed.

Lemma settled_append db i issue expires_at types :
  round_structure db →
  settled i (append_round db issue expires_at types) ↔ settled i db.
Proof.
  intros Hs. unfold settled. simpl. rewrite Exists_app.
  rewrite !Exists_exists. split.
  - intros [(v & Hv & Hi & Hd)|H].
    + exists v. split; [exact Hv|]. split; [exact Hi|].
      by apply (decisive_append db issue expires_at types v Hs Hv).
    + exfalso. destruct H as (v & Hv & _ & Hd).
      apply list_elem_of_singleton in Hv. subst v.
      unfold decisive in Hd. apply Exists_exists in Hd as (o & _ & Heq & _).
      discriminate Heq.
  - intros (v & Hv & Hi & Hd). left. exists v.
    split; [exact Hv|]. split; [exact Hi|].
    by apply (decisive_append db issue expires_at types v Hs Hv).
Qed.

Lemma open_rounds_append db i issue expires_at types :
  open_rounds i (append_round db issue expires_at types)
  = open_rounds i db
    ++ (if decide (issue = i)
        then [mkVoting (voting_seq db) issue expires_at None] else []).
Proof.
  unfold open_rounds. simpl. rewrite filter_app. f_equal.
  destruct (decide (issue = i)) as [E|E].
  - by rewrite filter_cons_True.
  - by rewrite filter_cons_False by (intros [? _]; done).
Qed.

Lemma count_append db issue0 expires_at types :
  round_structure db →
  round_count_except issue0 db →
  open_rounds issue0 db = [] →
  ¬ settled issue0 db →
  round_count (append_round db issue0 expires_at types).
Proof.
  intros Hs Hexc Hopen Hns issue Hissue.
  rewrite open_rounds_append.
  pose proof (settled_append db issue issue0 expires_at types Hs) as Hset.
  destruct (decide (issue0 = issue)) as [<-|Hne].
  - rewrite Hopen. simpl.
    destruct (decide (settled issue0 (append_round db issue0 expires_at types)))
      as [H|H]; [|reflexivity].
    by apply Hset in H.
  - rewrite app_nil_r. rewrite (Hexc issue); [|congruence|exact Hissue].
    destruct (decide (settled issue db));
      destruct (decide (settled issue
                          (append_round db issue0 expires_at types))); tauto.
Qed.

Lemma decisive_accepted db v acc :
  NoDup (option_pk <$> options db) → acc ∈ options db →
  decisive db (accept v (option_pk acc))
  ↔ option_type acc ≠ FURTHER_DISCUSSION.
Proof.
  intros Hnd Hacc. unfold decisive. rewrite Exists_exists. simpl. split.
  - intros (o & Ho & Heq & Ht). injection Heq as Heq.
    by rewrite (NoDup_key_eq option_pk (options db) acc o Hnd Hacc Ho Heq).
  - intros Ht. by exists acc.
Qed.

Lemma count_accept db v acc :
  round_invariant db →
  v ∈ votings db → voting_accepted_option v = None →
  acc ∈ options db →
  round_count_except (voting_issue v)
    (set_votings (update_row voting_pk (accept v (option_pk acc))) db)
  ∧ open_rounds (voting_issue v)
      (set_votings (update_row voting_pk (accept v (option_pk acc))) db) = []
  ∧ (settled (voting_issue v)
       (set_votings (update_row voting_pk (accept v (option_pk acc))) db)
     ↔ option_type acc ≠ FURTHER_DISCUSSION).
Proof.
  intros ((Hwi & (Hvnd & Hvall) & (Hond & _) & _ & _) & Hcount) Hv Hopen Hacc.
  set (v' := accept v (option_pk acc)).
  assert (Hnotdec : ¬ decisive db v).
  { unfold decisive. rewrite Exists_exists. intros (o & _ & Heq & _).
    congruence. }
  assert (Hopen' : ∀ i,
    open_rounds i (set_votings (update_row voting_pk v') db)
    = filter (λ r, voting_pk r ≠ voting_pk v) (open_rounds i db)).
  { intros i. unfold open_rounds. simpl.
    rewrite (filter_update_row_out voting_pk v') by (by intros [_ ?]).
    rewrite list_filter_filter. apply list_filter_iff. intros r. simpl.
    tauto. }
  assert (Hset' : ∀ i,
    settled i (set_votings (update_row voting_pk v') db)
    ↔ (voting_issue v = i ∧ option_type acc ≠ FURTHER_DISCUSSION)
      ∨ settled i db).
  { intros i. unfold settled. simpl.
    rewrite (Exists_update_row voting_pk v' _ _ v Hv eq_refl).
    change (decisive (set_votings (update_row voting_pk v') db))
      with (decisive db).
    unfold v'. rewrite (decisive_accepted db v acc Hond Hacc). simpl.
    apply or_iff_compat_l. rewrite !Exists_exists.
    split; intros (r & Hr & H); exists r; (split; [exact Hr|]); [tauto|].
    split; [exact H|]. intros E.
    assert (r = v) by (by apply (NoDup_key_eq voting_pk (votings db))).
    subst r. tauto. }
  assert (Hvi : Some (voting_issue v) ∈ issue_pk <$> issues db).
  { rewrite Forall_forall in Hvall. destruct (Hvall v Hv) as [_ Hex].
    by apply (Exists_key issue_pk). }
  assert (Hvopen : v ∈ open_rounds (voting_issue v) db).
  { unfold open_rounds. apply list_elem_of_filter. by split. }
  split; [|split].
  - intros i Hne Hi. simpl in Hi. rewrite Hopen'.
    rewrite filter_all.
    + rewrite (Hcount i Hi).
      pose proof (Hset' i) as Hsi.
      assert (Hne' : voting_issue v ≠ i) by congruence.
      destruct (decide (settled i db));
        destruct (decide (settled i
                            (set_votings (update_row voting_pk v') db)));
        try reflexivity; exfalso; tauto.
    + intros r Hr E. unfold open_rounds in Hr.
      apply list_elem_of_filter in Hr as [[Hri _] Hr].
      assert (r = v) by (by apply (NoDup_key_eq voting_pk (votings db))).
      subst r. congruence.
  - rewrite Hopen'.
    specialize (Hcount _ Hvi).
    destruct (decide (settled (voting_issue v) db)) as [Hs|Hs].
    + destruct (open_rounds (voting_issue v) db); [done|discriminate].
    + destruct (open_rounds (voting_issue v) db) as [|r [|r' l]];
        try discriminate.
      apply list_elem_of_singleton in Hvopen. subst r.
      by rewrite filter_cons_False, filter_nil by (intros H; by apply H).
  - rewrite Hset'. split; [|intros; left; by split].
    intros [[_ H]|H]; [exact H|exfalso].
    specialize (Hcount _ Hvi). rewrite decide_True in Hcount by exact H.
    destruct (open_rounds (voting_issue v) db); [|discriminate].
    by apply elem_of_nil in Hvopen.
Qed.

(** *** Each operation keeps the invariant *)

Lemma round_count_issue_update db new :
  round_count db → round_count (set_issues (update_row issue_pk new) db).
Proof.
  intros Hcount issue Hissue. simpl in Hissue.
  rewrite update_row_keys in Hissue. exact (Hcount issue Hissue).
Qed.

Lemma issue_has_voting db issue :
  round_invariant db → Some issue ∈ issue_pk <$> issues db →
  issue_votings issue db ≠ [].
Proof.
  intros (_ & Hcount) Hissue Hnone. specialize (Hcount issue Hissue).
  destruct (decide (settled issue db)) as [Hs|Hs].
  - unfold settled in Hs. apply Exists_exists in Hs as (v & Hv & Hi & _).
    assert (Hin : v ∈ issue_votings issue db).
    { unfold issue_votings. by apply list_elem_of_filter. }
    rewrite Hnone in Hin. by apply elem_of_nil in Hin.
  - destruct (open_rounds issue db) as [|v l] eqn:E; [discriminate|].
    assert (Hin : v ∈ open_rounds issue db)
      by (rewrite E; apply elem_of_cons; by left).
    unfold open_rounds in Hin. apply list_elem_of_filter in Hin as [[Hi _] Hv].
    assert (Hin : v ∈ issue_votings issue db).
    { unfold issue_votings. by apply list_elem_of_filter. }
    rewrite Hnone in Hin. by apply elem_of_nil in Hin.
Qed.

Lemma Issue_save_invariant now self db :
  round_invariant db → issue_pk self = None →
  round_invariant (Issue_save now self db).2.
Proof.
  intros (Hs & Hcount) Hpk.
  pose proof Hs as (Hwi & Hwv & _).
  pose proof (no_voting_of_next_issue db Hwi Hwv) as Hnone.
  rewrite (Issue_save_new now self db Hpk Hnone).
  set (row := mkIssue (Some (issue_seq db)) (issue_group self)
                (issue_created_by self) (issue_status self)
                (issue_status_changed_at self) (issue_topic self)
                (issue_affected_user self)).
  set (db_i := set_issue_seq (S (issue_seq db))
                 (set_issues (λ l, l ++ [row]) db)).
  apply (round_invariant_core
           (append_round db_i (issue_seq db) (voting_expiration_time now)
              [FURTHER_DISCUSSION; NO_CHANGE; REMOVE_USER]));
    [reflexivity|].
  assert (Hs_i : round_structure db_i)
    by (by apply structure_issue_append).
  split.
  - apply structure_append; [exact Hs_i| |reflexivity].
    simpl. rewrite fmap_app. apply elem_of_app. right.
    by apply list_elem_of_singleton.
  - apply count_append; [exact Hs_i| | |].
    + intros issue Hne Hissue. simpl in Hissue.
      rewrite fmap_app in Hissue. apply elem_of_app in Hissue as [Hissue|Hissue].
      * exact (Hcount issue Hissue).
      * apply list_elem_of_singleton in Hissue. simpl in Hissue. congruence.
    + unfold open_rounds. simpl. apply filter_none. intros v Hv [Hi _].
      assert (Hin : v ∈ issue_votings (issue_seq db) db).
      { unfold issue_votings. by apply list_elem_of_filter. }
      rewrite Hnone in Hin. by apply elem_of_nil in Hin.
    + unfold settled. simpl. rewrite Exists_exists. intros (v & Hv & Hi & _).
      assert (Hin : v ∈ issue_votings (issue_seq db) db).
      { unfold issue_votings. by apply list_elem_of_filter. }
      rewrite Hnone in Hin. by apply elem_of_nil in Hin.
Qed.

Lemma issue_row_pk db issue :
  wf_issues db → issue ∈ issues db → ∃ pk, issue_pk issue = Some pk.
Proof.
  intros (_ & Hall) Hi. rewrite Forall_forall in Hall. specialize (Hall _ Hi).
  unfold issue_pk_below in Hall. destruct (issue_pk issue); [eauto|done].
Qed.

Lemma cancel_core now issue db :
  round_invariant db → issue ∈ issues db →
  core (cancel now issue db).2
  = core (set_issues (update_row issue_pk (with_status issue CANCELLED now)) db).
Proof.
  intros Hinv Hi. pose proof Hinv as ((Hwi & _) & _).
  destruct (issue_row_pk db issue Hwi Hi) as (pk & Hpk).
  unfold cancel.
  rewrite (bind_ok _ _ _ _ _
    (Issue_save_existing now (with_status issue CANCELLED now) pk db Hpk
       ltac:(apply Exists_exists; by exists issue)
       ltac:(apply (issue_has_voting db pk Hinv);
             rewrite <- Hpk; by apply list_elem_of_fmap_2))).
  reflexivity.
Qed.

Lemma cancel_invariant now issue db :
  round_invariant db → issue ∈ issues db →
  round_invariant (cancel now issue db).2.
Proof.
  intros Hinv Hi.
  apply (round_invariant_core _ _ (cancel_core now issue db Hinv Hi)).
  destruct Hinv as (Hs & Hcount). split.
  - by apply (structure_issue_update db _ issue).
  - by apply round_count_issue_update.
Qed.

(** The ordered options always yield an accepted option. *)
Lemma accepted_of_total self db db' :
  has_fixed_options (voting_pk self) db →
  ∃ o, o ∈ voting_options (voting_pk self) db
       ∧ accepted_of
           (order_by_sum_score
              (annotate db <$> voting_options (voting_pk self) db)) db'
         = (Ok (annotate db o), db').
Proof.
  intros Hfix.
  set (opts := order_by_sum_score
                 (annotate db <$> voting_options (voting_pk self) db)).
  destruct (two_last opts) as (l & y & z & Hl).
  { unfold opts. rewrite order_by_sum_score_perm, length_fmap.
    rewrite (has_fixed_options_length _ _ Hfix). lia. }
  rewrite Hl, accepted_of_last_two. rewrite <- Hl.
  destruct (bool_decide _).
  - destruct (next_further_discussion_ok self db db' Hfix)
      as (fd & Hfd & _ & Hnext).
    exists fd. by split.
  - assert (Hz : z ∈ opts).
    { rewrite Hl. apply elem_of_app. right. apply elem_of_cons. right.
      by apply list_elem_of_singleton. }
    apply tally_options_elem in Hz as (o & Ho & ->). by exists o.
Qed.

Lemma calculate_results_invariant now self db :
  round_invariant db → self ∈ votings db →
  voting_accepted_option self = None →
  round_invariant (calculate_results now self db).2.
Proof.
  intros Hinv Hself Hopen.
  pose proof Hinv as ((Hwi & Hwv & Hwo & Hfix & Hacc) & Hcount).
  pose proof Hwo as (Hond & Hoall).
  set (opts := order_by_sum_score
                 (annotate db <$> voting_options (voting_pk self) db)).
  set (db1 := set_options (saved_options opts) db).
  destruct (accepted_of_total self db db1 (Hfix self Hself))
    as (o & Ho & Haccepted).
  rewrite (calculate_results_eq now self db _ Haccepted).
  fold opts. fold db1.
  apply voting_options_elem in Ho as [Ho Hov].
  (* the options keep their keys *)
  assert (Hkeys : option_key <$> saved_options opts (options db)
                  = option_key <$> options db).
  { apply saved_options_keys.
    intros x r (o0 & Ho0 & ->)%tally_options_elem Hr Hpk.
    apply voting_options_elem in Ho0 as [Ho0 _]. simpl in Hpk.
    by rewrite (NoDup_key_eq option_pk (options db) r o0 Hond Hr Ho0 Hpk). }
  assert (Hinv1 : round_invariant db1)
    by (by apply (round_invariant_keys db (saved_options opts (options db)))).
  assert (Hrow : ∃ r1, r1 ∈ options db1 ∧ option_key r1 = option_key o).
  { assert (Hk : option_key o ∈ option_key <$> options db1).
    { simpl. rewrite Hkeys. by apply list_elem_of_fmap_2. }
    apply list_elem_of_fmap in Hk as (r1 & Hk & Hr1). by exists r1. }
  destruct Hrow as (r1 & Hr1 & Hk1). injection Hk1 as Hpk1 Hv1 Ht1.
  change (option_pk (annotate db o)) with (option_pk o). rewrite <- Hpk1.
  set (db2 := set_votings
                (update_row voting_pk (accept self (option_pk r1))) db1).
  change (mkVoting (voting_pk self) (voting_issue self)
            (voting_expires_at self) (Some (option_pk r1)))
    with (accept self (option_pk r1)).
  fold db2.
  pose proof Hinv1 as (Hs1 & Hcount1).
  pose proof Hs1 as (Hwi1 & (Hvnd1 & Hvall1) & (Hond1 & Hoall1) & _ & _).
  assert (Hlt : (option_pk r1 < option_seq db1)%nat).
  { rewrite Forall_forall in Hoall1. by destruct (Hoall1 r1 Hr1). }
  assert (Hs2 : round_structure db2)
    by (by apply (structure_accept db1 self (option_pk r1))).
  destruct (count_accept db1 self r1 Hinv1 Hself Hopen Hr1)
    as (Hexc & Hnone & Hsettled).
  fold db2 in Hexc, Hnone, Hsettled.
  destruct (get_voting_saved self (option_pk r1) db1 Hvnd1 Hself)
    as (Hin' & Hnd' & Hget).
  change (mkVoting (voting_pk self) (voting_issue self)
            (voting_expires_at self) (Some (option_pk r1)))
    with (accept self (option_pk r1)) in Hin', Hnd', Hget.
  fold db2 in Hin', Hnd', Hget.
  assert (Hget' : get_voting (option_voting (annotate db o)) db2
                  = (Ok (accept self (option_pk r1)), db2))
    by (simpl option_voting; rewrite Hov; exact Hget).
  pose proof Hs2 as (Hwi2 & (Hvnd2 & Hvall2) & _ & Hfix2 & _).
  assert (Hissue2 : Some (voting_issue self) ∈ issue_pk <$> issues db2).
  { rewrite Forall_forall in Hvall2. destruct (Hvall2 _ Hin') as [_ Hex].
    by apply (Exists_key issue_pk) in Hex. }
  destruct (decide (option_type o = FURTHER_DISCUSSION)) as [Ht|Ht].
  - rewrite (do_action_further_discussion now (annotate db o) _ db2 Hget' Ht).
    apply (round_invariant_core
             (append_round db2 (voting_issue self) (voting_expiration_time now)
                (option_type <$> voting_options (voting_pk self) db2)));
      [unfold core, append_round; simpl; by rewrite length_fmap|].
    split.
    + apply structure_append; [exact Hs2|exact Hissue2|].
      exact (Hfix2 _ Hin').
    + apply count_append; [exact Hs2|exact Hexc|exact Hnone|].
      rewrite Hsettled. rewrite Ht1. tauto.
  - apply list_elem_of_fmap in Hissue2 as (issue & Hpk & Hissue).
    destruct (do_action_decides now (annotate db o) _ issue db2 Hget' Hin'
                Hissue (proj1 Hwi2) (eq_sym Hpk) Ht) as [Hcore _].
    apply (round_invariant_core _ _ Hcore). split.
    + by apply (structure_issue_update db2 _ issue).
    + apply round_count_issue_update.
      intros i Hi. destruct (decide (i = voting_issue self)) as [->|Hne].
      * rewrite Hnone. rewrite decide_True; [reflexivity|].
        apply Hsettled. by rewrite Ht1.
      * by apply Hexc.
Qed.

(** Every store reachable with the guarded tally satisfies the
    invariant. *)
Lemma reachable_round_invariant db :
  reachable true db → round_invariant db.
Proof.
  induction 1 as [memberships history|a db Hreach IH Hen].
  - split; [split; [|split; [|split; [|split]]]|].
    + split; [apply NoDup_nil_2|apply Forall_nil_2].
    + split; [apply NoDup_nil_2|apply Forall_nil_2].
    + split; [apply NoDup_nil_2|apply Forall_nil_2].
    + intros v Hv. by apply elem_of_nil in Hv.
    + intros v o Hv. by apply elem_of_nil in Hv.
    + intros issue Hissue. by apply elem_of_nil in Hissue.
  - destruct a as [now issue|voting user vote_data|voting user|now voting
                  |now issue]; simpl in Hen |- *.
    + by apply Issue_save_invariant.
    + apply (round_invariant_core db); [apply save_votes_core|exact IH].
    + apply (round_invariant_core db); [apply delete_votes_core|exact IH].
    + destruct Hen as [Hv Hopen].
      apply calculate_results_invariant; [exact IH|exact Hv|by apply Hopen].
    + by apply cancel_invariant.
Qed.

(** X1.  In every store reachable through issue creation, vote
    submission and deletion, cancellation, and tally of a round that has
    no accepted option yet, every issue has exactly one voting round
    without an accepted option as long as none of its rounds has accepted
    [no_change] or [remove_user], and none afterwards; and vote
    submission, vote deletion and cancellation leave the rounds as they
    are. *)
Theorem one_open_round_until_settled db :
  reachable true db →
  (∀ issue, Some issue ∈ issue_pk <$> issues db →
     (¬ settled issue db → length (open_rounds issue db) = 1%nat)
     ∧ (settled issue db → open_rounds issue db = []))
  ∧ (∀ a, enabled true a db →
       match a with
       | SaveVotes _ _ _ | DeleteVotes _ _ | Cancel _ _ =>
           votings (perform a db) = votings db
       | _ => True
       end).
Proof.
  intros Hreach. pose proof (reachable_round_invariant db Hreach) as Hinv.
  split.
  - intros issue Hissue. destruct Hinv as (_ & Hcount).
    specialize (Hcount issue Hissue).
    destruct (decide (settled issue db)) as [Hs|Hs].
    + split; [done|]. intros _.
      by destruct (open_rounds issue db).
    + split; [by intros|done].
  - intros [now issue|voting user vote_data|voting user|now voting|now issue]
      Hen; simpl in *; try exact I.
    + pose proof (save_votes_core voting user vote_data db) as H.
      unfold core in H. congruence.
    + pose proof (delete_votes_core voting user db) as H.
      unfold core in H. congruence.
    + pose proof (cancel_core now issue db Hinv Hen) as H.
      unfold core in H. simpl in H. congruence.
Qed.

(** ** A tally that ends in further discussion *)

Lemma filter_ext_in {A} (P Q : A → Prop) `{∀ x, Decision (P x)}
    `{∀ x, Decision (Q x)} (l : list A) :
  (∀ x, x ∈ l → P x ↔ Q x) → filter P l = filter Q l.
Proof.
  induction l as [|y l IH]; intros Hl; [reflexivity|].
  assert (Hy : P y ↔ Q y) by (apply Hl; apply elem_of_cons; by left).
  assert (IH' : filter P l = filter Q l).
  { apply IH. intros x Hx. apply Hl. apply elem_of_cons. by right. }
  destruct (decide (P y)) as [HP|HP].
  - rewrite !filter_cons_True by tauto. by rewrite IH'.
  - rewrite !filter_cons_False by tauto. exact IH'.
Qed.

(** In a tie between two options of the greatest sum, the ordered options
    yield the round's [further_discussion] option. *)
Lemma accepted_of_tally_tie self db db' a b :
  NoDup (option_pk <$> options db) →
  has_fixed_options (voting_pk self) db →
  a ∈ voting_options (voting_pk self) db →
  b ∈ voting_options (voting_pk self) db →
  option_pk a ≠ option_pk b →
  Sum_votes_score (option_pk a) db = Sum_votes_score (option_pk b) db →
  (∀ o, o ∈ voting_options (voting_pk self) db →
        sum_score_leb (Sum_votes_score (option_pk o) db)
                      (Sum_votes_score (option_pk a) db) = true) →
  ∃ fd, fd ∈ voting_options (voting_pk self) db
        ∧ option_type fd = FURTHER_DISCUSSION
        ∧ accepted_of
            (order_by_sum_score
               (annotate db <$> voting_options (voting_pk self) db)) db'
          = (Ok (annotate db fd), db').
Proof.
  intros Hond Hfix Ha Hb Hab Heq Hmax.
  destruct (next_further_discussion_ok self db db' Hfix)
    as (fd & Hfd & Ht & Hnext).
  exists fd. split; [exact Hfd|]. split; [exact Ht|].
  rewrite (accepted_of_tie _ (annotate db a) (annotate db b) db').
  - exact Hnext.
  - apply order_by_sum_score_sorted.
  - by apply tally_options_pk_NoDup.
  - apply tally_options_elem. by exists a.
  - apply tally_options_elem. by exists b.
  - exact Hab.
  - exact Heq.
  - intros x (o & Ho & ->)%tally_options_elem. by apply Hmax.
Qed.

(** The store a tally leaves when it accepts [further_discussion]. *)
Lemma calculate_results_further_discussion now self db fd :
  NoDup (voting_pk <$> votings db) → self ∈ votings db →
  fd ∈ voting_options (voting_pk self) db →
  option_type fd = FURTHER_DISCUSSION →
  accepted_of
    (order_by_sum_score (annotate db <$> voting_options (voting_pk self) db))
    (set_options
       (saved_options
          (order_by_sum_score
             (annotate db <$> voting_options (voting_pk self) db))) db)
  = (Ok (annotate db fd),
     set_options
       (saved_options
          (order_by_sum_score
             (annotate db <$> voting_options (voting_pk self) db))) db) →
  calculate_results now self db =
  (Ok tt,
   set_log (λ l, l ++ [issue_changed SenderOption (voting_issue self)])
     (append_round
        (set_votings (update_row voting_pk (accept self (option_pk fd)))
           (set_options
              (saved_options
                 (order_by_sum_score
                    (annotate db <$> voting_options (voting_pk self) db)))
              db))
        (voting_issue self) (voting_expiration_time now)
        (option_type <$>
           voting_options (voting_pk self)
             (set_options
                (saved_options
                   (order_by_sum_score
                      (annotate db <$> voting_options (voting_pk self) db)))
                db)))).
Proof.
  intros Hvnd Hself Hfd Ht Hacc.
  rewrite (calculate_results_eq now self db _ Hacc).
  set (db1 := set_options _ db).
  destruct (get_voting_saved self (option_pk fd) db1 Hvnd Hself)
    as (Hin' & Hnd' & Hget).
  apply voting_options_elem in Hfd as [_ Hfdv].
  change (option_pk (annotate db fd)) with (option_pk fd).
  change (mkVoting (voting_pk self) (voting_issue self)
            (voting_expires_at self) (Some (option_pk fd)))
    with (accept self (option_pk fd)) in *.
  set (db2 := set_votings (update_row voting_pk (accept self (option_pk fd)))
                db1) in *.
  assert (Hget' : get_voting (option_voting (annotate db fd)) db2
                  = (Ok (accept self (option_pk fd)), db2))
    by (simpl option_voting; rewrite Hfdv; exact Hget).
  rewrite (do_action_further_discussion now (annotate db fd) _ db2 Hget' Ht).
  unfold set_log, append_round. simpl. by rewrite length_fmap.
Qed.

(** X2.  Tallying, in a tie, a round that already has an accepted option
    returns and adds a round: the issue has one more round without an
    accepted option than before the call. *)
Theorem repeated_tally_adds_open_round now self db a b :
  wf db →
  self ∈ votings db →
  has_fixed_options (voting_pk self) db →
  is_Some (voting_accepted_option self) →
  a ∈ voting_options (voting_pk self) db →
  b ∈ voting_options (voting_pk self) db →
  option_pk a ≠ option_pk b →
  Sum_votes_score (option_pk a) db = Sum_votes_score (option_pk b) db →
  (∀ o, o ∈ voting_options (voting_pk self) db →
        sum_score_leb (Sum_votes_score (option_pk o) db)
                      (Sum_votes_score (option_pk a) db) = true) →
  (calculate_results now self db).1 = Ok tt
  ∧ open_rounds (voting_issue self) (calculate_results now self db).2
    = open_rounds (voting_issue self) db
      ++ [mkVoting (voting_seq db) (voting_issue self)
            (voting_expiration_time now) None].
Proof.
  intros (_ & (Hvnd & _) & (Hond & _) & _) Hself Hfix Hdone Ha Hb Hab Heq Hmax.
  destruct (accepted_of_tally_tie self db
              (set_options
                 (saved_options
                    (order_by_sum_score
                       (annotate db <$> voting_options (voting_pk self) db)))
                 db) a b Hond Hfix Ha Hb Hab Heq Hmax)
    as (fd & Hfd & Ht & Hacc).
  rewrite (calculate_results_further_discussion now self db fd
             Hvnd Hself Hfd Ht Hacc).
  split; [reflexivity|]. simpl snd.
  match goal with
  | |- open_rounds ?i (set_log ?f ?x) = _ =>
      change (open_rounds i (set_log f x)) with (open_rounds i x)
  end.
  rewrite open_rounds_append. rewrite decide_True by reflexivity.
  f_equal. unfold open_rounds. simpl votings.
  rewrite filter_update_row_out
    by (simpl; intros [_ ?]; done).
  apply filter_ext_in. intros v Hv. split; [tauto|].
  intros [Hi Hopen]. split; [done|]. simpl. intros Hpk.
  assert (v = self) by (by apply (NoDup_key_eq voting_pk (votings db))).
  subst v. rewrite Hopen in Hdone. by destruct Hdone.
Qed.

(** X3.  A round nobody voted in ends in further discussion: the tally
    returns, accepts the round's [further_discussion] option, leaves the
    issues as they are and adds one round on the same issue. *)
Theorem tally_without_votes_continues_discussion now self db :
  wf db →
  self ∈ votings db →
  has_fixed_options (voting_pk self) db →
  (∀ w, w ∈ votes db → ¬ vote_in_voting db (voting_pk self) w) →
  ∃ fd, fd ∈ voting_options (voting_pk self) db
        ∧ option_type fd = FURTHER_DISCUSSION
        ∧ (calculate_results now self db).1 = Ok tt
        ∧ issues (calculate_results now self db).2 = issues db
        ∧ votings (calculate_results now self db).2
          = update_row voting_pk (accept self (option_pk fd)) (votings db)
            ++ [mkVoting (voting_seq db) (voting_issue self)
                  (voting_expiration_time now) None].
Proof.
  intros (_ & (Hvnd & _) & (Hond & _) & _) Hself Hfix Hnone.
  assert (Hsum : ∀ o, o ∈ voting_options (voting_pk self) db →
                      Sum_votes_score (option_pk o) db = None).
  { intros o [Ho Hov]%voting_options_elem. unfold Sum_votes_score.
    rewrite filter_none; [reflexivity|].
    intros w Hw Hwo. apply (Hnone w Hw).
    apply Exists_exists. by exists o. }
  assert (Hin : ∀ t, t ∈ [FURTHER_DISCUSSION; NO_CHANGE; REMOVE_USER] →
                     ∃ o, o ∈ voting_options (voting_pk self) db
                          ∧ option_type o = t).
  { intros t Ht. rewrite <- Hfix in Ht.
    apply list_elem_of_fmap in Ht as (o & -> & Ho). by exists o. }
  destruct (Hin FURTHER_DISCUSSION) as (a & Ha & Hta);
    [apply elem_of_cons; by left|].
  destruct (Hin NO_CHANGE) as (b & Hb & Htb);
    [apply elem_of_cons; right; apply elem_of_cons; by left|].
  assert (Hab : option_pk a ≠ option_pk b).
  { intros Hpk. apply voting_options_elem in Ha as [Ha _].
    apply voting_options_elem in Hb as [Hb _].
    assert (a = b) by (by apply (NoDup_key_eq option_pk (options db))).
    congruence. }
  destruct (accepted_of_tally_tie self db
              (set_options
                 (saved_options
                    (order_by_sum_score
                       (annotate db <$> voting_options (voting_pk self) db)))
                 db) a b Hond Hfix Ha Hb Hab)
    as (fd & Hfd & Ht & Hacc).
  { by rewrite (Hsum a Ha), (Hsum b Hb). }
  { intros o Ho. by rewrite (Hsum o Ho), (Hsum a Ha). }
  exists fd. split; [exact Hfd|]. split; [exact Ht|].
  rewrite (calculate_results_further_discussion now self db fd
             Hvnd Hself Hfd Ht Hacc).
  done.
Qed.

(** ** Deleting votes *)

(** [delete_votes] in closed form. *)
Lemma delete_votes_eq self user db :
  delete_votes self user db =
  (Ok (0 <? length (votes_of (voting_pk self) user db))%nat,
   set_log (λ l, l ++ (if (0 <? length (votes_of (voting_pk self) user db))%nat
                       then [stats_vote_deleted (voting_issue self);
                             issue_changed SenderVoting (voting_issue self)]
                       else []))
     (set_votes
        (filter (λ w, ¬ (vote_in_voting db (voting_pk self) w
                         ∧ vote_user w = user))) db)).
Proof.
  unfold delete_votes. step.
  destruct (0 <? length _)%nat; unfold when; rewrite ?bind_assoc; step;
    unfold ret, set_log; simpl.
  - by rewrite <- app_assoc.
  - by rewrite app_nil_r.
Qed.

(** X4.  [delete_votes] for a user without a vote in the round returns
    [False] and leaves the whole store, log included, as it is. *)
Theorem delete_votes_without_votes_changes_nothing self user db :
  votes_of (voting_pk self) user db = [] →
  delete_votes self user db = (Ok false, db).
Proof.
  intros Hnone. rewrite delete_votes_eq, Hnone. simpl.
  f_equal. unfold set_log, set_votes. simpl.
  rewrite app_nil_r, filter_all; [by destruct db|].
  intros w Hw Hmine.
  assert (Hin : w ∈ votes_of (voting_pk self) user db)
    by (by apply votes_of_elem).
  rewrite Hnone in Hin. by apply elem_of_nil in Hin.
Qed.

(** X5.  [delete_votes] returns whether the user had a vote in the round;
    afterwards the user has none, every other vote is still there and no
    vote is added; issues, rounds and options are untouched, and the two
    events are emitted exactly when something was deleted. *)
Theorem delete_votes_removes_the_votes_of_the_user self user db :
  (delete_votes self user db).1
  = Ok (bool_decide (votes_of (voting_pk self) user db ≠ []))
  ∧ votes_of (voting_pk self) user (delete_votes self user db).2 = []
  ∧ (∀ w, w ∈ votes (delete_votes self user db).2 ↔
          w ∈ votes db ∧ w ∉ votes_of (voting_pk self) user db)
  ∧ core (delete_votes self user db).2 = core db
  ∧ log (delete_votes self user db).2
    = log db ++ (if bool_decide (votes_of (voting_pk self) user db ≠ [])
                 then [stats_vote_deleted (voting_issue self);
                       issue_changed SenderVoting (voting_issue self)]
                 else []).
Proof.
  rewrite delete_votes_eq. simpl.
  assert (Hb : (0 <? length (votes_of (voting_pk self) user db))%nat
               = bool_decide (votes_of (voting_pk self) user db ≠ [])).
  { by destruct (votes_of (voting_pk self) user db). }
  rewrite Hb. split; [reflexivity|]. split; [|split; [|done]].
  - unfold votes_of. simpl. rewrite list_filter_filter.
    apply filter_none. intros w _. tauto.
  - intros w. rewrite list_elem_of_filter, votes_of_elem. tauto.
Qed.


(** ** A round without its options *)

(** X7.  The tally of a round that has no option raises [IndexError] and
    leaves the store as it is; the tally of a round that has one option
    raises [IndexError] after it has saved the sum of that option.  In
    both cases the round gets no accepted option and no action runs. *)
Theorem tally_of_short_round_raises_IndexError now self db :
  match voting_options (voting_pk self) db with
  | [] => calculate_results now self db = (Raise IndexError, db)
  | [o] =>
      calculate_results now self db
      = (Raise IndexError,
         set_options (update_row option_pk (annotate db o)) db)
  | _ => True
  end.
Proof.
  unfold calculate_results. step.
  destruct (voting_options (voting_pk self) db) as [|o [|o' l]]; [| |exact I].
  - simpl. step. by destruct db.
  - simpl. unfold Option_save at 1. step.
    unfold accepted_of. rewrite bind_assoc. by destruct db.
Qed.

(** ** The actions of [no_change] and [remove_user] *)

Lemma get_voting_set_issues f pk db :
  get_voting pk (set_issues f db)
  = ((get_voting pk db).1, set_issues f db).
Proof.
  unfold get_voting, bind, gets. simpl.
  by destruct (filter _ (votings db)) as [|? [|? ?]].
Qed.

(** [do_action] of a [remove_user] option once the issue is decided: it
    depends on the membership found for the affected user. *)
Lemma do_action_remove_user_eq now o v issue db :
  NoDup (voting_pk <$> votings db) →
  NoDup (issue_pk <$> issues db) →
  v ∈ votings db → voting_pk v = option_voting o →
  issue ∈ issues db → issue_pk issue = Some (voting_issue v) →
  option_type o = REMOVE_USER →
  do_action now o db =
  match filter (λ m, m.1 = issue_group issue
                     ∧ Some m.2 = issue_affected_user issue)
               (memberships db) with
  | [] =>
      (Raise DoesNotExist,
       set_issues (update_row issue_pk (with_status issue DECIDED now)) db)
  | [m] =>
      (Ok tt,
       set_log (λ l, l ++ [issue_changed SenderOption (voting_issue v)])
         (set_history
            (λ l, l ++ [mkHistory MEMBER_REMOVED (issue_group issue)
                          (option_list (issue_affected_user issue))])
            (set_memberships (filter (λ x, x ≠ m))
               (set_issues
                  (update_row issue_pk (with_status issue DECIDED now))
                  db))))
  | _ =>
      (Raise MultipleObjectsReturned,
       set_issues (update_row issue_pk (with_status issue DECIDED now)) db)
  end.
Proof.
  intros Hvnd Hind Hv Hvo Hi Hpk Ht.
  assert (Hget : get_voting (option_voting o) db = (Ok v, db))
    by (rewrite <- Hvo; by apply get_voting_ok).
  rewrite (do_action_decides_eq now o v issue db Hget Hv Hi Hind Hpk)
    by (rewrite Ht; done).
  rewrite Ht. rewrite bool_decide_eq_true_2 by reflexivity.
  unfold when, _remove_user.
  set (db_d := set_issues _ db).
  assert (Hget_d : get_voting (option_voting o) db_d = (Ok v, db_d)).
  { unfold db_d. rewrite get_voting_set_issues. by rewrite Hget. }
  assert (Hissue_d : get_issue (voting_issue v) db_d
                     = (Ok (with_status issue DECIDED now), db_d)).
  { apply get_issue_ok.
    - unfold db_d. simpl. by rewrite update_row_keys.
    - unfold db_d. simpl. by apply (update_row_elem issue_pk _ _ issue).
    - exact Hpk. }
  rewrite !bind_assoc. rewrite (bind_ok _ _ _ _ _ Hget_d).
  rewrite !bind_assoc. rewrite (bind_ok _ _ _ _ _ Hissue_d).
  unfold get_membership. rewrite !bind_assoc. step.
  change (memberships db_d) with (memberships db).
  change (issue_group (with_status issue DECIDED now))
    with (issue_group issue).
  change (issue_affected_user (with_status issue DECIDED now))
    with (issue_affected_user issue).
  destruct (filter _ (memberships db)) as [|m [|m' l]]; try reflexivity.
Qed.


(** X9.  The action of a [remove_user] option on an issue whose affected
    user is not (or no longer) a member of the group raises
    [DoesNotExist]; the issue is decided all the same, and neither a
    history entry nor the [issue_changed] signal follows. *)
Theorem remove_user_action_without_membership_raises now o v issue db :
  wf db →
  v ∈ votings db → voting_pk v = option_voting o →
  issue ∈ issues db → issue_pk issue = Some (voting_issue v) →
  option_type o = REMOVE_USER →
  (∀ m, m ∈ memberships db →
        ¬ (m.1 = issue_group issue ∧ Some m.2 = issue_affected_user issue)) →
  do_action now o db
  = (Raise DoesNotExist,
     set_issues (update_row issue_pk (with_status issue DECIDED now)) db)
  ∧ lookup_issue (voting_issue v) (do_action now o db).2
    = Some (with_status issue DECIDED now).
Proof.
  intros ((Hind & _) & (Hvnd & _) & _) Hv Hvo Hi Hpk Ht Hnone.
  rewrite (do_action_remove_user_eq now o v issue db Hvnd Hind Hv Hvo Hi Hpk Ht).
  rewrite (filter_none _ (memberships db)) by exact Hnone.
  split; [reflexivity|]. simpl snd.
  unfold lookup_issue. rewrite <- Hpk.
  change (issue_pk issue) with (issue_pk (with_status issue DECIDED now)).
  simpl issues.
  by rewrite (filter_key_updated issue_pk _ _ issue Hind Hi).
Qed.

(** X10.  Running the action of a [remove_user] option a second time,
    after it has removed the membership, raises [DoesNotExist]: the
    membership and history tables stay as the first run left them and
    only the time of the decision is written again. *)
Theorem remove_user_action_twice_raises now now' o v issue user db :
  wf db →
  v ∈ votings db → voting_pk v = option_voting o →
  issue ∈ issues db → issue_pk issue = Some (voting_issue v) →
  option_type o = REMOVE_USER →
  issue_affected_user issue = Some user →
  (issue_group issue, user) ∈ memberships db →
  NoDup (memberships db) →
  ∃ db1,
    do_action now o db = (Ok tt, db1)
    ∧ (do_action now' o db1).1 = Raise DoesNotExist
    ∧ memberships (do_action now' o db1).2 = memberships db1
    ∧ history (do_action now' o db1).2 = history db1
    ∧ log (do_action now' o db1).2 = log db1
    ∧ lookup_issue (voting_issue v) (do_action now' o db1).2
      = Some (with_status issue DECIDED now').
Proof.
  intros ((Hind & _) & (Hvnd & _) & _) Hv Hvo Hi Hpk Ht Hu Hm Hmnd.
  rewrite (do_action_remove_user_eq now o v issue db Hvnd Hind Hv Hvo Hi Hpk Ht).
  assert (Hone : filter (λ m, m.1 = issue_group issue
                              ∧ Some m.2 = issue_affected_user issue)
                   (memberships db) = [(issue_group issue, user)]).
  { rewrite <- (filter_key_unique (λ m : nat * nat, m) (memberships db)
                  (issue_group issue, user)).
    - apply filter_ext_in. intros [g u] _. simpl. rewrite Hu.
      split; [intros [-> [= ->]]; done|intros [= -> ->]; done].
    - by rewrite list_fmap_id.
    - exact Hm. }
  rewrite Hone. eexists. split; [reflexivity|].
  set (issue1 := with_status issue DECIDED now).
  set (db_d := set_issues (update_row issue_pk issue1) db).
  match goal with
  | |- context [do_action now' o ?x] => set (db1 := x)
  end.
  assert (Hind1 : NoDup (issue_pk <$> issues db1))
    by (simpl; by rewrite update_row_keys).
  assert (Hi1 : issue1 ∈ issues db1)
    by (simpl; by apply (update_row_elem issue_pk _ _ issue)).
  rewrite (do_action_remove_user_eq now' o v issue1 db1 Hvnd Hind1 Hv Hvo Hi1
             Hpk Ht).
  rewrite (filter_none _ (memberships db1)).
  - split; [reflexivity|]. split; [reflexivity|]. split; [reflexivity|].
    split; [reflexivity|]. simpl snd.
    unfold lookup_issue. rewrite <- Hpk.
    change (issue_pk issue) with (issue_pk (with_status issue1 DECIDED now')).
    change (with_status issue1 DECIDED now')
      with (with_status issue DECIDED now').
    simpl issues.
    by rewrite (filter_key_updated issue_pk (with_status issue DECIDED now')
                  _ issue1 Hind1 Hi1).
  - intros [g u] Hin [Hg Hsome]. simpl in Hin, Hg, Hsome.
    apply list_elem_of_filter in Hin as [Hne _].
    change (issue_affected_user issue1) with (issue_affected_user issue)
      in Hsome.
    change (issue_group issue1) with (issue_group issue) in Hg.
    rewrite Hu in Hsome. apply Hne. congruence.
Qed.

(** ** Cancelling and deciding an issue *)

(** X11.  [cancel] and [decide] of an instance whose row exists and has
    a round write the instance over that row, with the new status and the
    time of the call, whatever the status was; they add no round, option
    or vote, [cancel] emits one [issue_changed] signal and [decide]
    none. *)
Theorem cancel_and_decide_write_the_issue_row now self pk db :
  NoDup (issue_pk <$> issues db) →
  issue_pk self = Some pk →
  Exists (λ r, issue_pk r = Some pk) (issues db) →
  issue_votings pk db ≠ [] →
  cancel now self db
  = (Ok tt,
     set_log (λ l, l ++ [issue_changed SenderIssue pk])
       (set_issues (update_row issue_pk (with_status self CANCELLED now)) db))
  ∧ lookup_issue pk (cancel now self db).2
    = Some (with_status self CANCELLED now)
  ∧ Issue_decide now self db
    = (Ok tt,
       set_issues (update_row issue_pk (with_status self DECIDED now)) db)
  ∧ lookup_issue pk (Issue_decide now self db).2
    = Some (with_status self DECIDED now).
Proof.
  intros Hnd Hpk Hex Hv.
  assert (Hc : cancel now self db
    = (Ok tt,
       set_log (λ l, l ++ [issue_changed SenderIssue pk])
         (set_issues (update_row issue_pk (with_status self CANCELLED now))
            db))).
  { unfold cancel.
    by rewrite (bind_ok _ _ _ _ _
      (Issue_save_existing now (with_status self CANCELLED now) pk db Hpk
         Hex Hv)). }
  assert (Hd : Issue_decide now self db
    = (Ok tt,
       set_issues (update_row issue_pk (with_status self DECIDED now)) db)).
  { unfold Issue_decide.
    by rewrite (bind_ok _ _ _ _ _
      (Issue_save_existing now (with_status self DECIDED now) pk db Hpk
         Hex Hv)). }
  apply Exists_exists in Hex as (r & Hr & Hrpk).
  rewrite Hc, Hd. split; [reflexivity|]. split; [|split; [reflexivity|]].
  - simpl snd. unfold lookup_issue. rewrite <- Hpk.
    change (issue_pk self) with (issue_pk (with_status self CANCELLED now)).
    simpl issues.
    rewrite (filter_key_updated issue_pk _ _ r Hnd Hr); [reflexivity|].
    simpl. congruence.
  - simpl snd. unfold lookup_issue. rewrite <- Hpk.
    change (issue_pk self) with (issue_pk (with_status self DECIDED now)).
    simpl issues.
    rewrite (filter_key_updated issue_pk _ _ r Hnd Hr); [reflexivity|].
    simpl. congruence.
Qed.

(** ** Rounds that are due soon *)

(** X12.  For a clock that does not run backwards, a round that
    [due_soon] selects is not expired when the query runs and is expired
    once [VOTING_DUE_SOON_HOURS] hours have passed; a round whose expiry
    is the time of the query is neither due soon nor expired; and a round
    that is expired is never due soon. *)
Theorem due_soon_rounds_expire_within_the_lead_time now now'
    (l : list Voting) v :
  (now ≤ now')%Z → v ∈ l →
  (v ∈ due_soon now now' l →
     is_expired now' v = false
     ∧ is_expired (now + relativedelta_hours VOTING_DUE_SOON_HOURS) v = true)
  ∧ (voting_expires_at v = now' →
     (v ∉ due_soon now now' l) ∧ is_expired now' v = false)
  ∧ (is_expired now v = true → v ∉ due_soon now now' l).
Proof.
  intros Hclock Hv. unfold due_soon, is_expired. rewrite list_elem_of_filter.
  split; [|split].
  - intros [[H1 H2] _]. split; [apply Z.ltb_ge; lia|apply Z.ltb_lt; lia].
  - intros ->. split; [intros [[H1 _] _]; lia|apply Z.ltb_irrefl].
  - intros H%Z.ltb_lt [[H1 _] _]. lia.
Qed.

(** ** The sums a tally saves *)


Lemma saved_options_rows (l t : list Option) :
  saved_options l t = saved_row l <$> t.
Proof.
  unfold saved_options, saved_row. revert t.
  induction l as [|o l IH]; intros t; simpl.
  - by rewrite list_fmap_id.
  - rewrite IH. unfold update_row. rewrite <- list_fmap_compose.
    apply list_fmap_ext. intros _ r _. reflexivity.
Qed.

Lemma saved_row_other (l : list Option) r :
  option_pk r ∉ option_pk <$> l → saved_row l r = r.
Proof.
  unfold saved_row. revert r.
  induction l as [|o l IH]; intros r Hr; [reflexivity|]. simpl.
  rewrite fmap_cons, not_elem_of_cons in Hr. destruct Hr as [Hne Hr].
  rewrite decide_False by exact Hne. by apply IH.
Qed.

Lemma saved_row_found (l : list Option) r o :
  NoDup (option_pk <$> l) → o ∈ l → option_pk o = option_pk r →
  saved_row l r = o.
Proof.
  revert r. induction l as [|o' l IH]; intros r Hnd Ho Hpk.
  - by apply elem_of_nil in Ho.
  - rewrite fmap_cons in Hnd. apply NoDup_cons in Hnd as [Hfresh Hnd].
    unfold saved_row. simpl. fold (saved_row l).
    apply elem_of_cons in Ho as [->|Ho].
    + rewrite decide_True by done. by apply saved_row_other.
    + rewrite decide_False.
      * by apply IH.
      * intros E. apply Hfresh. rewrite <- E, <- Hpk.
        by apply list_elem_of_fmap_2.
Qed.

(** The option table once the tally has saved the sums, for any order
    [opts] of the round's options. *)
Lemma saved_options_tally self db opts :
  NoDup (option_pk <$> options db) →
  opts ≡ₚ annotate db <$> voting_options (voting_pk self) db →
  saved_options opts (options db)
  = (λ r, if decide (option_voting r = voting_pk self)
          then annotate db r else r) <$> options db.
Proof.
  intros Hond Hperm. rewrite saved_options_rows.
  assert (Hnd : NoDup (option_pk <$> opts)).
  { rewrite Hperm, <- list_fmap_compose.
    rewrite (list_fmap_ext (option_pk ∘ annotate db) option_pk)
      by (intros; reflexivity).
    eapply sublist_NoDup; [exact Hond|].
    apply fmap_sublist. unfold voting_options. apply sublist_filter. }
  apply list_fmap_ext. intros _ r Hr%list_elem_of_lookup_2.
  destruct (decide (option_voting r = voting_pk self)) as [Hv|Hv].
  - apply saved_row_found; [exact Hnd| |reflexivity].
    rewrite Hperm. apply list_elem_of_fmap_2. by apply voting_options_elem.
  - apply saved_row_other.
    intros (x & Hpk & Hx)%list_elem_of_fmap.
    rewrite Hperm in Hx. apply list_elem_of_fmap in Hx as (r0 & -> & Hr0).
    apply voting_options_elem in Hr0 as [Hr0 Hv0]. simpl in Hpk.
    assert (r = r0) by (by apply (NoDup_key_eq option_pk (options db))).
    congruence.
Qed.




(** ** The order of options of equal sum *)





(** ** Every reachable store is well formed *)

Lemma bind_preserves {A B} (P : DB → Prop) (m : M A) (k : A → M B) db :
  P (m db).2 → (∀ a db', P db' → P (k a db').2) → P (bind m k db).2.
Proof.
  intros Hm Hk. unfold bind.
  destruct (m db) as [[a|e] db']; simpl in *; auto.
Qed.

Lemma wf_votes_grow db db' :
  votes db' = votes db → vote_seq db' = vote_seq db →
  (∀ k, k ∈ option_pk <$> options db → k ∈ option_pk <$> options db') →
  wf_votes db → wf_votes db'.
Proof.
  intros Hv Hs Ho (Hnd & Huniq & Hall). unfold wf_votes. rewrite Hv, Hs.
  split; [exact Hnd|]. split; [exact Huniq|].
  eapply Forall_impl; [exact Hall|]. simpl. intros w [Hlt Hex].
  split; [exact Hlt|]. apply (Exists_key option_pk). apply Ho.
  by apply (Exists_key option_pk).
Qed.

Lemma Vote_create_wf_votes user k score db :
  wf_votes db → wf_votes (Vote_create user k score db).2.
Proof.
  intros (Hnd & Huniq & Hall). unfold Vote_create. step.
  destruct (bool_decide _) eqn:E; [|by (split; [|split])].
  apply bool_decide_eq_true in E as [Hopt Hfree]. step. unfold ret.
  rewrite Forall_forall in Hall.
  split; [|split]; simpl.
  - rewrite fmap_app. apply NoDup_app. split; [exact Hnd|]. split.
    + intros p (w & -> & Hw)%list_elem_of_fmap Hp.
      apply list_elem_of_singleton in Hp. simpl in Hp.
      destruct (Hall w Hw). lia.
    + apply NoDup_singleton.
  - rewrite fmap_app. apply NoDup_app. split; [exact Huniq|]. split.
    + intros [u o] (w & Heq & Hw)%list_elem_of_fmap Hp.
      apply list_elem_of_singleton in Hp. simpl in Hp.
      injection Hp as -> ->. injection Heq as Hu Ho.
      apply Hfree. apply Exists_exists. by exists w.
    + apply NoDup_singleton.
  - apply Forall_app. split.
    + apply Forall_forall. intros w Hw. destruct (Hall w Hw) as [Hlt Hex].
      split; [lia|exact Hex].
    + apply Forall_singleton. simpl. split; [lia|exact Hopt].
Qed.

Lemma wf_votes_filter (P : Vote → Prop) `{∀ w, Decision (P w)} db :
  wf_votes db → wf_votes (set_votes (filter P) db).
Proof.
  intros (Hnd & Huniq & Hall). split; [|split]; simpl.
  - eapply sublist_NoDup; [exact Hnd|]. apply fmap_sublist, sublist_filter.
  - eapply sublist_NoDup; [exact Huniq|]. apply fmap_sublist, sublist_filter.
  - apply Forall_forall. intros w [_ Hw]%list_elem_of_filter.
    rewrite Forall_forall in Hall. by apply Hall.
Qed.

Lemma save_votes_loop_wf_votes user d rest : ∀ acc db,
  wf_votes db → wf_votes (save_votes_loop user d acc rest db).2.
Proof.
  induction rest as [|item rest IH]; intros acc db Hwf; [exact Hwf|].
  simpl. apply bind_preserves; [|intros acc' db'; apply IH].
  unfold save_votes_body.
  assert (Hcreate : ∀ db0, wf_votes db0 →
    wf_votes ((do v <- Vote_create user (data_option item.2)
                         (data_score item.2)
               in ret (acc.1 ++ [v], acc.2)) db0).2).
  { intros db0 H0. apply bind_preserves; [by apply Vote_create_wf_votes|].
    intros v db' H'. exact H'. }
  destruct (d !! item.1) as [vote|]; [|by apply Hcreate].
  destruct (bool_decide _); [exact Hwf|].
  unfold Vote_delete. step. apply Hcreate. by apply wf_votes_filter.
Qed.

Lemma save_votes_wf_votes self user vote_data db :
  wf_votes db → wf_votes (save_votes self user vote_data db).2.
Proof.
  intros Hwf. unfold save_votes. step.
  apply bind_preserves; [by apply save_votes_loop_wf_votes|].
  intros r db' H'.
  destruct (size _ =? 0)%nat; destruct (0 <? length r.1)%nat;
    unfold when; step; exact H'.
Qed.

Lemma delete_votes_wf_votes self user db :
  wf_votes db → wf_votes (delete_votes self user db).2.
Proof.
  intros Hwf. rewrite delete_votes_eq. simpl snd.
  exact (wf_votes_filter _ db Hwf).
Qed.

Lemma store_invariant_core_votes db db' :
  core db' = core db → votes db' = votes db → vote_seq db' = vote_seq db →
  store_invariant db → store_invariant db'.
Proof.
  destruct db, db'. unfold core. simpl.
  intros [= -> -> -> -> -> ->] -> -> H. exact H.
Qed.

Lemma round_structure_keys db t' :
  option_key <$> t' = option_key <$> options db →
  round_structure db → round_structure (set_options (λ _, t') db).
Proof.
  intros Hk (Hwi & Hwv & (Hond & Hoall) & Hfix & Hacc).
  split; [exact Hwi|split; [exact Hwv|split; [|split]]].
  - split; simpl.
    + by rewrite (keys_pks _ _ Hk).
    + apply (keys_Forall
               (λ k, (k.1.1 < option_seq db)%nat
                     ∧ Exists (λ v, voting_pk v = k.1.2) (votings db))
               (options db) t' Hk).
      exact Hoall.
  - intros v Hv. unfold has_fixed_options, voting_options. simpl.
    rewrite (keys_filter_voting _ _ _ Hk). by apply Hfix.
  - exact Hacc.
Qed.

Lemma _remove_user_votes o db :
  (votes (_remove_user o db).2, vote_seq (_remove_user o db).2)
  = (votes db, vote_seq db).
Proof.
  unfold _remove_user.
  case_run (get_voting_state (option_voting o) db).
  case_run (get_issue_state (voting_issue a) db).
  case_run (get_membership_state (issue_group a0) (issue_affected_user a0) db).
  reflexivity.
Qed.

Lemma Issue_save_store_invariant now self db :
  store_invariant db → issue_pk self = None →
  store_invariant (Issue_save now self db).2.
Proof.
  intros (Hs & Hwvotes & Hhas) Hpk.
  pose proof Hs as (Hwi & Hwv & _).
  pose proof (no_voting_of_next_issue db Hwi Hwv) as Hnone.
  rewrite (Issue_save_new now self db Hpk Hnone).
  set (row := mkIssue (Some (issue_seq db)) (issue_group self)
                (issue_created_by self) (issue_status self)
                (issue_status_changed_at self) (issue_topic self)
                (issue_affected_user self)).
  set (db_i := set_issue_seq (S (issue_seq db))
                 (set_issues (λ l, l ++ [row]) db)).
  apply (store_invariant_core_votes
           (append_round db_i (issue_seq db) (voting_expiration_time now)
              [FURTHER_DISCUSSION; NO_CHANGE; REMOVE_USER]));
    [reflexivity|reflexivity|reflexivity|].
  assert (Hs_i : round_structure db_i)
    by (by apply structure_issue_append).
  split; [|split].
  - apply structure_append; [exact Hs_i| |reflexivity].
    simpl. rewrite fmap_app. apply elem_of_app. right.
    by apply list_elem_of_singleton.
  - apply (wf_votes_grow db); [reflexivity|reflexivity| |exact Hwvotes].
    intros k Hk. simpl. rewrite fmap_app. apply elem_of_app. by left.
  - intros issue Hissue. simpl in Hissue |- *.
    rewrite fmap_app in Hissue. rewrite fmap_app.
    apply elem_of_app in Hissue as [Hissue|Hissue]; apply elem_of_app.
    + left. by apply Hhas.
    + right. apply list_elem_of_singleton in Hissue. simpl in Hissue.
      injection Hissue as ->. by apply list_elem_of_singleton.
Qed.

Lemma has_round_votings db issue :
  issue ∈ voting_issue <$> votings db → issue_votings issue db ≠ [].
Proof.
  intros (v & -> & Hv)%list_elem_of_fmap Hnone.
  assert (Hin : v ∈ issue_votings (voting_issue v) db).
  { unfold issue_votings. by apply list_elem_of_filter. }
  rewrite Hnone in Hin. by apply elem_of_nil in Hin.
Qed.

Lemma cancel_store_invariant now issue db :
  store_invariant db → issue ∈ issues db →
  store_invariant (cancel now issue db).2.
Proof.
  intros (Hs & Hwvotes & Hhas) Hi.
  pose proof Hs as (Hwi & _).
  destruct (issue_row_pk db issue Hwi Hi) as (pk & Hpk).
  assert (Hin : Some pk ∈ issue_pk <$> issues db)
    by (rewrite <- Hpk; by apply list_elem_of_fmap_2).
  unfold cancel.
  rewrite (bind_ok _ _ _ _ _
    (Issue_save_existing now (with_status issue CANCELLED now) pk db Hpk
       ltac:(apply Exists_exists; by exists issue)
       (has_round_votings db pk (Hhas pk Hin)))).
  step.
  apply (store_invariant_core_votes
           (set_issues (update_row issue_pk (with_status issue CANCELLED now))
              db));
    [reflexivity|reflexivity|reflexivity|].
  split; [|split].
  - by apply (structure_issue_update db _ issue).
  - exact Hwvotes.
  - intros i Hissue. simpl in Hissue. rewrite update_row_keys in Hissue.
    by apply Hhas.
Qed.

Lemma calculate_results_store_invariant now self db :
  store_invariant db → self ∈ votings db →
  store_invariant (calculate_results now self db).2.
Proof.
  intros (Hs & Hwvotes & Hhas) Hself.
  pose proof Hs as (Hwi & Hwv & Hwo & Hfix & Hacc).
  pose proof Hwo as (Hond & Hoall). pose proof Hwv as (Hvnd & Hvall).
  set (opts := order_by_sum_score
                 (annotate db <$> voting_options (voting_pk self) db)).
  set (db1 := set_options (saved_options opts) db).
  destruct (accepted_of_total self db db1 (Hfix self Hself))
    as (o & Ho & Haccepted).
  rewrite (calculate_results_eq now self db _ Haccepted).
  fold opts. fold db1.
  apply voting_options_elem in Ho as [Ho Hov].
  assert (Hkeys : option_key <$> saved_options opts (options db)
                  = option_key <$> options db).
  { apply saved_options_keys.
    intros x r (o0 & Ho0 & ->)%tally_options_elem Hr Hpk.
    apply voting_options_elem in Ho0 as [Ho0 _]. simpl in Hpk.
    by rewrite (NoDup_key_eq option_pk (options db) r o0 Hond Hr Ho0 Hpk). }
  assert (Hs1 : round_structure db1)
    by (by apply (round_structure_keys db (saved_options opts (options db)))).
  assert (Hlt : (option_pk o < option_seq db1)%nat).
  { rewrite Forall_forall in Hoall. by destruct (Hoall o Ho). }
  change (option_pk (annotate db o)) with (option_pk o).
  change (mkVoting (voting_pk self) (voting_issue self)
            (voting_expires_at self) (Some (option_pk o)))
    with (accept self (option_pk o)).
  set (db2 := set_votings
                (update_row voting_pk (accept self (option_pk o))) db1).
  assert (Hs2 : round_structure db2)
    by (by apply (structure_accept db1 self (option_pk o))).
  assert (Hinv2 : store_invariant db2).
  { split; [exact Hs2|]. split.
    - apply (wf_votes_grow db); [reflexivity|reflexivity| |exact Hwvotes].
      intros k Hk. simpl. by rewrite (keys_pks _ _ Hkeys).
    - intros issue Hissue. simpl in Hissue.
      apply Hhas in Hissue. apply list_elem_of_fmap in Hissue as (v & -> & Hv).
      simpl. destruct (decide (voting_pk v = voting_pk self)) as [E|E].
      + assert (v = self) by (by apply (NoDup_key_eq voting_pk (votings db))).
        subst v.
        change (voting_issue self)
          with (voting_issue (accept self (option_pk o))).
        apply list_elem_of_fmap_2.
        by apply (update_row_elem voting_pk _ _ self).
      + apply list_elem_of_fmap_2. by apply update_row_other. }
  destruct (get_voting_saved self (option_pk o) db1 Hvnd Hself)
    as (Hin' & Hnd' & Hget).
  change (mkVoting (voting_pk self) (voting_issue self)
            (voting_expires_at self) (Some (option_pk o)))
    with (accept self (option_pk o)) in Hin', Hnd', Hget.
  fold db2 in Hin', Hnd', Hget.
  assert (Hget' : get_voting (option_voting (annotate db o)) db2
                  = (Ok (accept self (option_pk o)), db2))
    by (simpl option_voting; rewrite Hov; exact Hget).
  pose proof Hinv2 as (_ & Hwvotes2 & Hhas2).
  pose proof Hs2 as (Hwi2 & (Hvnd2 & Hvall2) & _ & Hfix2 & _).
  assert (Hissue2 : Some (voting_issue self) ∈ issue_pk <$> issues db2).
  { rewrite Forall_forall in Hvall2. destruct (Hvall2 _ Hin') as [_ Hex].
    by apply (Exists_key issue_pk) in Hex. }
  destruct (decide (option_type o = FURTHER_DISCUSSION)) as [Ht|Ht].
  - rewrite (do_action_further_discussion now (annotate db o) _ db2 Hget' Ht).
    apply (store_invariant_core_votes
             (append_round db2 (voting_issue self) (voting_expiration_time now)
                (option_type <$> voting_options (voting_pk self) db2)));
      [unfold core, append_round; simpl; by rewrite length_fmap
      |reflexivity|reflexivity|].
    split; [|split].
    + apply structure_append; [exact Hs2|exact Hissue2|].
      exact (Hfix2 _ Hin').
    + apply (wf_votes_grow db2); [reflexivity|reflexivity| |exact Hwvotes2].
      intros k Hk. simpl. rewrite fmap_app. apply elem_of_app. by left.
    + intros issue Hissue. simpl. rewrite fmap_app. apply elem_of_app.
      left. by apply Hhas2.
  - apply list_elem_of_fmap in Hissue2 as (issue & Hpk & Hissue).
    rewrite (do_action_decides_eq now (annotate db o) _ issue db2 Hget' Hin'
               Hissue (proj1 Hwi2) (eq_sym Hpk) Ht).
    set (db_d := set_issues _ db2).
    assert (Hinv_d : store_invariant db_d).
    { split; [|split].
      - by apply (structure_issue_update db2 _ issue).
      - exact Hwvotes2.
      - intros i Hi. simpl in Hi. rewrite update_row_keys in Hi.
        by apply Hhas2. }
    destruct (bool_decide (option_type (annotate db o) = REMOVE_USER)).
    + unfold when, bind.
      pose proof (_remove_user_core (annotate db o) db_d) as Hc.
      pose proof (_remove_user_votes (annotate db o) db_d) as Hv.
      destruct (_remove_user (annotate db o) db_d) as [[[]|e] db']; simpl in *;
        injection Hv as Hv1 Hv2;
        by apply (store_invariant_core_votes db_d).
    + unfold when. step.
      by apply (store_invariant_core_votes db_d).
Qed.

Lemma reachable_store_invariant guarded db :
  reachable guarded db → store_invariant db.
Proof.
  induction 1 as [memberships history|a db Hreach IH Hen].
  - split; [split; [|split; [|split; [|split]]]|split].
    + split; [apply NoDup_nil_2|apply Forall_nil_2].
    + split; [apply NoDup_nil_2|apply Forall_nil_2].
    + split; [apply NoDup_nil_2|apply Forall_nil_2].
    + intros v Hv. by apply elem_of_nil in Hv.
    + intros v o Hv. by apply elem_of_nil in Hv.
    + split; [apply NoDup_nil_2|]. split; [apply NoDup_nil_2|apply Forall_nil_2].
    + intros issue Hissue. by apply elem_of_nil in Hissue.
  - destruct a as [now issue|voting user vote_data|voting user|now voting
                  |now issue]; simpl in Hen |- *.
    + by apply Issue_save_store_invariant.
    + destruct IH as (Hs & Hwvotes & Hhas).
      pose proof (save_votes_core voting user vote_data db) as Hc.
      split; [|split].
      * destruct Hs as (H1 & H2 & H3 & H4 & H5).
        destruct db, (save_votes voting user vote_data _).2.
        unfold core in Hc. simpl in Hc.
        injection Hc as -> -> -> -> -> ->.
        by (split; [|split; [|split; [|split]]]).
      * apply (wf_votes_grow (set_votes (λ _, votes (save_votes voting user
                                                       vote_data db).2)
                                (set_vote_seq
                                   (vote_seq (save_votes voting user
                                                vote_data db).2) db)));
          [reflexivity|reflexivity| |].
        -- intros k Hk. simpl in Hk. unfold core in Hc.
           injection Hc as _ _ Ho _ _ _. by rewrite Ho.
        -- pose proof (save_votes_wf_votes voting user vote_data db Hwvotes)
             as Hw.
           unfold core in Hc. injection Hc as _ _ Ho _ _ _.
           unfold wf_votes in *. simpl. by rewrite <- Ho.
      * unfold core in Hc. injection Hc as Hi Hv _ _ _ _.
        rewrite Hi, Hv. exact Hhas.
    + destruct IH as (Hs & Hwvotes & Hhas).
      rewrite delete_votes_eq. simpl snd.
      split; [exact Hs|]. split; [|exact Hhas].
      exact (wf_votes_filter _ db Hwvotes).
    + destruct Hen as [Hv _].
      by apply calculate_results_store_invariant.
    + by apply cancel_store_invariant.
Qed.

(** X15.  Every store reachable through issue creation, vote submission
    and deletion, tally and cancellation -- whether or not the tally is
    only run on rounds without an accepted option -- is well formed
    (primary keys are unique, foreign keys point to rows, a user has at
    most one vote per option), every round has exactly one option of each
    of the three types, and every issue has a round. *)
Theorem reachable_stores_are_well_formed guarded db :
  reachable guarded db →
  wf db
  ∧ (∀ v, v ∈ votings db → has_fixed_options (voting_pk v) db)
  ∧ (∀ issue, Some issue ∈ issue_pk <$> issues db →
              issue_votings issue db ≠ []).
Proof.
  intros Hreach.
  destruct (reachable_store_invariant guarded db Hreach)
    as ((Hwi & Hwv & Hwo & Hfix & _) & Hwvotes & Hhas).
  split; [by (split; [|split; [|split]])|]. split; [exact Hfix|].
  intros issue Hissue. by apply has_round_votings, Hhas.
Qed.

(** ** Participants *)

Lemma participants_elem voting db u :
  u ∈ participants voting db ↔
  ∃ w, w ∈ votes db ∧ vote_in_voting db voting w ∧ vote_user w = u.
Proof.
  unfold participants. rewrite elem_of_remove_dups, list_elem_of_fmap.
  split.
  - intros (w & -> & [Hin Hw]%list_elem_of_filter). by exists w.
  - intros (w & Hw & Hin & <-). exists w. split; [done|].
    by apply list_elem_of_filter.
Qed.

Lemma participants_votes_of voting user db :
  user ∈ participants voting db ↔ votes_of voting user db ≠ [].
Proof.
  rewrite participants_elem. split.
  - intros (w & Hw & Hin & Hu) Hnone.
    assert (H : w ∈ votes_of voting user db) by (by apply votes_of_elem).
    rewrite Hnone in H. by apply elem_of_nil in H.
  - intros Hne. destruct (votes_of voting user db) as [|w l] eqn:E; [done|].
    assert (H : w ∈ votes_of voting user db)
      by (rewrite E; apply elem_of_cons; by left).
    apply votes_of_elem in H as (? & ? & ?). by exists w.
Qed.

(** X16.  The count that [annotate_participant_count] attaches to a
    round is the count [participant_count] computes for an instance
    without the annotation: the number of different users with a vote on
    an option of the round. *)
Theorem annotated_participant_count_agrees db (l : list Voting) v n :
  (v, n) ∈ annotate_participant_count db l →
  v ∈ l
  ∧ participant_count (Some n) v db = participant_count None v db.
Proof.
  unfold annotate_participant_count.
  intros (v' & [= -> ->] & Hv)%list_elem_of_fmap. split; [exact Hv|].
  unfold participant_count, Count_options_votes_user.
  apply Permutation_length. apply NoDup_Permutation.
  - apply NoDup_remove_dups.
  - apply NoDup_remove_dups.
  - intros u. fold (participants (voting_pk v') db).
    rewrite participants_elem, elem_of_remove_dups, list_elem_of_bind.
    split.
    + intros (o & Hu & [Ho Hov]%voting_options_elem).
      apply list_elem_of_fmap in Hu as (w & -> & [Hwo Hw]%list_elem_of_filter).
      exists w. split; [exact Hw|]. split; [|reflexivity].
      apply Exists_exists. by exists o.
    + intros (w & Hw & Hin & <-).
      apply Exists_exists in Hin as (o & Ho & Hpk & Hov).
      exists o. split; [|by apply voting_options_elem].
      apply list_elem_of_fmap. exists w. split; [reflexivity|].
      by apply list_elem_of_filter.
Qed.

Lemma participants_insert user (old new : list nat) :
  NoDup old → NoDup new →
  (∀ u, u ∈ new ↔ u = user ∨ u ∈ old) →
  length new = if decide (user ∈ old) then length old else S (length old).
Proof.
  intros Hold Hnew Hiff. destruct (decide (user ∈ old)) as [Hin|Hin].
  - apply Permutation_length. apply NoDup_Permutation; [done|done|].
    intros u. rewrite Hiff. split; [intros [->|?]; done|by right].
  - change (S (length old)) with (length (user :: old)).
    apply Permutation_length. apply NoDup_Permutation; [done| |].
    + by apply NoDup_cons.
    + intros u. rewrite Hiff, elem_of_cons. reflexivity.
Qed.


(** X18.  After [delete_votes] the user is no participant of the round
    and every other participant still is: the participant count is one
    less than before for a user who had a vote in the round, and the same
    for a user who had none. *)
Theorem delete_votes_uncounts_the_voter self user db :
  (user ∉ participants (voting_pk self) (delete_votes self user db).2)
  ∧ (∀ u, u ≠ user →
          u ∈ participants (voting_pk self) (delete_votes self user db).2
          ↔ u ∈ participants (voting_pk self) db)
  ∧ participant_count None self db
    = if decide (votes_of (voting_pk self) user db = [])
      then participant_count None self (delete_votes self user db).2
      else S (participant_count None self (delete_votes self user db).2).
Proof.
  rewrite delete_votes_eq. simpl snd.
  match goal with |- context [participants _ ?x] => set (db1 := x) end.
  assert (Hiff : ∀ u, u ∈ participants (voting_pk self) db1 ↔
                      u ≠ user ∧ u ∈ participants (voting_pk self) db).
  { intros u. rewrite !participants_elem. split.
    - intros (w & Hw & Hin & Hu). simpl in Hw.
      apply list_elem_of_filter in Hw as [Hnot Hw].
      split; [intros ->; apply Hnot; by split|]. by exists w.
    - intros [Hne (w & Hw & Hin & Hu)]. exists w.
      split; [|by split]. simpl. apply list_elem_of_filter.
      split; [|exact Hw]. intros [_ Hwu]. congruence. }
  split; [rewrite Hiff; by intros [? _]|].
  split; [intros u Hne; rewrite Hiff; tauto|].
  unfold participant_count.
  destruct (decide (votes_of (voting_pk self) user db = [])) as [Hv|Hv].
  - apply Permutation_length. apply NoDup_Permutation.
    + apply NoDup_remove_dups.
    + apply NoDup_remove_dups.
    + intros u. rewrite Hiff. split; [|tauto].
      intros Hu. split; [|exact Hu]. intros ->.
      by apply participants_votes_of in Hu.
  - rewrite (participants_insert user
               (participants (voting_pk self) db1)
               (participants (voting_pk self) db)).
    + by rewrite decide_False by (rewrite Hiff; by intros [? _]).
    + apply NoDup_remove_dups.
    + apply NoDup_remove_dups.
    + intros u. rewrite Hiff. destruct (decide (u = user)) as [->|Hne].
      * split; [by left|]. intros _. by apply participants_votes_of.
      * tauto.
Qed.

(** ** The events of a vote submission *)




(** ** A round without a further-discussion option *)

(** X20.  In a tie at the top, the tally of a round none of whose options
    is [further_discussion] raises [StopIteration]: the sums are saved,
    but the round gets no accepted option and no action runs. *)
Theorem tally_tie_without_further_discussion_raises now self db a b :
  NoDup (option_pk <$> options db) →
  (∀ o, o ∈ voting_options (voting_pk self) db →
        option_type o ≠ FURTHER_DISCUSSION) →
  a ∈ voting_options (voting_pk self) db →
  b ∈ voting_options (voting_pk self) db →
  option_pk a ≠ option_pk b →
  Sum_votes_score (option_pk a) db = Sum_votes_score (option_pk b) db →
  (∀ o, o ∈ voting_options (voting_pk self) db →
        sum_score_leb (Sum_votes_score (option_pk o) db)
                      (Sum_votes_score (option_pk a) db) = true) →
  (calculate_results now self db).1 = Raise StopIteration
  ∧ votings (calculate_results now self db).2 = votings db
  ∧ issues (calculate_results now self db).2 = issues db
  ∧ log (calculate_results now self db).2 = log db
  ∧ options (calculate_results now self db).2
    = (λ r, if decide (option_voting r = voting_pk self)
            then annotate db r else r) <$> options db.
Proof.
  intros Hond Hnofd Ha Hb Hab Heq Hmax.
  set (opts := order_by_sum_score
                 (annotate db <$> voting_options (voting_pk self) db)).
  set (db1 := set_options (saved_options opts) db).
  assert (Hacc : accepted_of opts db1 = (Raise StopIteration, db1)).
  { rewrite (accepted_of_tie opts (annotate db a) (annotate db b) db1).
    - unfold next_further_discussion. rewrite filter_none; [reflexivity|].
      intros x (o & Ho & ->)%tally_options_elem. simpl. by apply Hnofd.
    - apply order_by_sum_score_sorted.
    - by apply tally_options_pk_NoDup.
    - apply tally_options_elem. by exists a.
    - apply tally_options_elem. by exists b.
    - exact Hab.
    - exact Heq.
    - intros x (o & Ho & ->)%tally_options_elem. by apply Hmax. }
  unfold calculate_results. step.
  rewrite (bind_ok _ _ _ _ _ (for_each_Option_save _ db)).
  fold opts. fold db1.
  rewrite (bind_raise _ _ _ _ _ Hacc).
  split; [reflexivity|]. split; [reflexivity|]. split; [reflexivity|].
  split; [reflexivity|]. simpl.
  apply saved_options_tally; [exact Hond|]. apply order_by_sum_score_perm.
Qed.

End Models.

(** * The theorems at concrete stores *)

(** Membership in and well-formedness of a concrete store, by
    evaluation. *)
Ltac by_decide := apply (bool_decide_unpack _); vm_compute; exact I.

Lemma example_db_after_creation :
  (Issue_save 7 100 example_issue empty_db).2
  = set_log (λ _, [stats_issue_created 0; issue_changed SenderIssue 0])
      (set_memberships (λ _, []) (example_db [])).
Proof. reflexivity. Qed.








Lemma further_discussion_opens_fresh_round_witness :
  (do_action 7 200 (mkOption 0 0 FURTHER_DISCUSSION None) (example_db [])).1
  = Ok tt
  ∧ issues (do_action 7 200 (mkOption 0 0 FURTHER_DISCUSSION None)
              (example_db [])).2
    = issues (example_db [])
  ∧ mkVoting 1 0 604800000200 None
    ∈ votings (do_action 7 200 (mkOption 0 0 FURTHER_DISCUSSION None)
                 (example_db [])).2.
Proof.
  destruct (further_discussion_opens_fresh_round 7 200
              (mkOption 0 0 FURTHER_DISCUSSION None) example_round
              (example_db []))
    as (Hok & _ & Hissues & _).
  - by_decide.
  - by_decide.
  - exact (Permutation_refl _).
  - by_decide.
  - reflexivity.
  - split; [exact Hok|]. split; [exact Hissues|]. by_decide.
Defined.


(** Counterexample to C9 as stated.  A round whose expiry timestamp
    equals the current time is not expired. *)
Lemma is_expired_false_at_expiry :
  ¬ (∀ (now : Z) (self : Voting),
       is_expired now self = true ↔ (voting_expires_at self ≤ now)%Z).
Proof.
  intros H. destruct (H 604800000100%Z example_round) as [_ H2].
  specialize (H2 ltac:(simpl; lia)). vm_compute in H2. discriminate H2.
Qed.

Lemma first_vote_event_even_without_votes_witness :
  save_votes example_round 20 [] (example_db [])
  = (Ok [], set_log (λ l, l ++ [stats_voted 0]) (example_db [])).
Proof.
  apply (first_vote_event_even_without_votes example_round 20 (example_db [])).
  reflexivity.
Defined.

(** ** The further properties at concrete stores *)

Lemma one_open_round_until_settled_witness :
  reachable 7 true true
    (perform 7 true (CreateIssue 100 example_issue)
       (mkDB [] [] [] [] [(1%nat, 11%nat)] [] 0 0 0 0 []))
  ∧ length (open_rounds 0
              (perform 7 true (CreateIssue 100 example_issue)
                 (mkDB [] [] [] [] [(1%nat, 11%nat)] [] 0 0 0 0 [])))
    = 1%nat.
Proof.
  assert (Hr : reachable 7 true true
                 (perform 7 true (CreateIssue 100 example_issue)
                    (mkDB [] [] [] [] [(1%nat, 11%nat)] [] 0 0 0 0 []))).
  { apply reachable_step; [apply reachable_initial|reflexivity]. }
  split; [exact Hr|].
  destruct (one_open_round_until_settled 7 true _ Hr) as [Hcount _].
  apply (Hcount 0%nat); by_decide.
Defined.

Lemma repeated_tally_adds_open_round_witness :
  (calculate_results 7 true 300 (accept example_round 0)
     (calculate_results 7 true 200 example_round
        (example_db (example_votes 20 0 5 5 3))).2).1 = Ok tt
  ∧ open_rounds (voting_issue (accept example_round 0))
      (calculate_results 7 true 300 (accept example_round 0)
         (calculate_results 7 true 200 example_round
            (example_db (example_votes 20 0 5 5 3))).2).2
    = open_rounds (voting_issue (accept example_round 0))
        (calculate_results 7 true 200 example_round
           (example_db (example_votes 20 0 5 5 3))).2
      ++ [mkVoting
            (voting_seq
               (calculate_results 7 true 200 example_round
                  (example_db (example_votes 20 0 5 5 3))).2)
            (voting_issue (accept example_round 0))
            (voting_expiration_time 7 300) None].
Proof.
  apply (repeated_tally_adds_open_round 7 true 300 (accept example_round 0)
           (calculate_results 7 true 200 example_round
              (example_db (example_votes 20 0 5 5 3))).2
           (mkOption 0 0 FURTHER_DISCUSSION (Some 5%Z))
           (mkOption 1 0 NO_CHANGE (Some 5%Z))).
  - by_decide.
  - by_decide.
  - exact (Permutation_refl _).
  - by exists 0%nat.
  - by_decide.
  - by_decide.
  - simpl. lia.
  - reflexivity.
  - apply Forall_forall. by_decide.
Defined.

Lemma tally_without_votes_continues_discussion_witness :
  ∃ fd, fd ∈ voting_options (voting_pk example_round) (example_db [])
        ∧ option_type fd = FURTHER_DISCUSSION
        ∧ (calculate_results 7 true 200 example_round (example_db [])).1
          = Ok tt
        ∧ issues (calculate_results 7 true 200 example_round
                    (example_db [])).2
          = issues (example_db [])
        ∧ votings (calculate_results 7 true 200 example_round
                     (example_db [])).2
          = update_row voting_pk (accept example_round (option_pk fd))
              (votings (example_db []))
            ++ [mkVoting (voting_seq (example_db []))
                  (voting_issue example_round)
                  (voting_expiration_time 7 200) None].
Proof.
  apply (tally_without_votes_continues_discussion 7 true 200 example_round
           (example_db [])).
  - by_decide.
  - by_decide.
  - exact (Permutation_refl _).
  - apply Forall_forall. by_decide.
Defined.

Lemma delete_votes_without_votes_changes_nothing_witness :
  delete_votes example_round 20 (example_db (example_votes 30 0 5 5 3))
  = (Ok false, example_db (example_votes 30 0 5 5 3)).
Proof.
  apply delete_votes_without_votes_changes_nothing. reflexivity.
Defined.



Lemma remove_user_action_without_membership_raises_witness :
  do_action 7 200 (mkOption 2 0 REMOVE_USER None)
    (set_memberships (λ _, []) (example_db []))
  = (Raise DoesNotExist,
     set_issues
       (update_row issue_pk
          (with_status
             (mkIssue (Some 0%nat) 1 10 ONGOING None "conflict"%string
                (Some 11%nat)) DECIDED 200))
       (set_memberships (λ _, []) (example_db []))).
Proof.
  apply (remove_user_action_without_membership_raises 7 200
           (mkOption 2 0 REMOVE_USER None) example_round
           (mkIssue (Some 0%nat) 1 10 ONGOING None "conflict"%string
              (Some 11%nat))
           (set_memberships (λ _, []) (example_db []))).
  - by_decide.
  - by_decide.
  - reflexivity.
  - apply elem_of_cons. by left.
  - reflexivity.
  - reflexivity.
  - apply Forall_forall. by_decide.
Defined.

Lemma remove_user_action_twice_raises_witness :
  ∃ db1,
    do_action 7 200 (mkOption 2 0 REMOVE_USER None) (example_db [])
    = (Ok tt, db1)
    ∧ (do_action 7 300 (mkOption 2 0 REMOVE_USER None) db1).1
      = Raise DoesNotExist.
Proof.
  destruct (remove_user_action_twice_raises 7 200 300
              (mkOption 2 0 REMOVE_USER None) example_round
              (mkIssue (Some 0%nat) 1 10 ONGOING None "conflict"%string
                 (Some 11%nat))
              11%nat (example_db []))
    as (db1 & Hfirst & Hsecond & _).
  - by_decide.
  - by_decide.
  - reflexivity.
  - apply elem_of_cons. by left.
  - reflexivity.
  - reflexivity.
  - reflexivity.
  - by_decide.
  - by_decide.
  - exists db1. by split.
Defined.

Lemma cancel_and_decide_write_the_issue_row_witness :
  lookup_issue 0
    (cancel 7 200
       (mkIssue (Some 0%nat) 1 10 DECIDED (Some 150%Z) "conflict"%string
          (Some 11%nat))
       (example_db [])).2
  = Some (mkIssue (Some 0%nat) 1 10 CANCELLED (Some 200%Z) "conflict"%string
            (Some 11%nat)).
Proof.
  destruct (cancel_and_decide_write_the_issue_row 7 200
              (mkIssue (Some 0%nat) 1 10 DECIDED (Some 150%Z)
                 "conflict"%string (Some 11%nat))
              0%nat (example_db []))
    as (_ & Hrow & _).
  - by_decide.
  - reflexivity.
  - by_decide.
  - by_decide.
  - exact Hrow.
Defined.

Lemma due_soon_rounds_expire_within_the_lead_time_witness :
  example_round ∈ due_soon 12 604800000000 604800000001 [example_round]
  ∧ is_expired 604800000001 example_round = false
  ∧ is_expired (604800000000 + relativedelta_hours 12) example_round = true.
Proof.
  assert (Hin : example_round
                ∈ due_soon 12 604800000000 604800000001 [example_round])
    by by_decide.
  split; [exact Hin|].
  destruct (due_soon_rounds_expire_within_the_lead_time 12 604800000000
              604800000001 [example_round] example_round) as (Hsoon & _).
  - lia.
  - by_decide.
  - exact (Hsoon Hin).
Defined.



Lemma reachable_stores_are_well_formed_witness :
  reachable 7 true false
    (perform 7 true (Tally 300 (accept example_round 0))
       (perform 7 true (Tally 200 example_round)
          (perform 7 true (CreateIssue 100 example_issue)
             (mkDB [] [] [] [] [(1%nat, 11%nat)] [] 0 0 0 0 []))))
  ∧ wf (perform 7 true (Tally 300 (accept example_round 0))
          (perform 7 true (Tally 200 example_round)
             (perform 7 true (CreateIssue 100 example_issue)
                (mkDB [] [] [] [] [(1%nat, 11%nat)] [] 0 0 0 0 [])))).
Proof.
  assert (Hr : reachable 7 true false
    (perform 7 true (Tally 300 (accept example_round 0))
       (perform 7 true (Tally 200 example_round)
          (perform 7 true (CreateIssue 100 example_issue)
             (mkDB [] [] [] [] [(1%nat, 11%nat)] [] 0 0 0 0 []))))).
  { apply reachable_step; [apply reachable_step; [apply reachable_step|]|].
    - apply reachable_initial.
    - reflexivity.
    - split; [by_decide|discriminate].
    - split; [by_decide|discriminate]. }
  split; [exact Hr|].
  by destruct (reachable_stores_are_well_formed 7 true false _ Hr).
Defined.

Lemma annotated_participant_count_agrees_witness :
  participant_count (Some 1%nat) example_round
    (example_db (example_votes 20 0 1 7 2))
  = participant_count None example_round
      (example_db (example_votes 20 0 1 7 2)).
Proof.
  destruct (annotated_participant_count_agrees
              (example_db (example_votes 20 0 1 7 2))
              [example_round] example_round 1) as [_ Heq].
  - by_decide.
  - exact Heq.
Defined.



Lemma tally_tie_without_further_discussion_raises_witness :
  (calculate_results 7 true 200 example_round
     (set_options
        (λ _, [mkOption 0 0 NO_CHANGE None; mkOption 1 0 REMOVE_USER None])
        (example_db []))).1
  = Raise StopIteration.
Proof.
  destruct (tally_tie_without_further_discussion_raises 7 true 200
              example_round
              (set_options
                 (λ _, [mkOption 0 0 NO_CHANGE None;
                        mkOption 1 0 REMOVE_USER None])
                 (example_db []))
              (mkOption 0 0 NO_CHANGE None) (mkOption 1 0 REMOVE_USER None))
    as (Hraise & _).
  - by_decide.
  - apply Forall_forall. by_decide.
  - by_decide.
  - by_decide.
  - simpl. lia.
  - reflexivity.
  - apply Forall_forall. by_decide.
  - exact Hraise.
Defined.

Lemma delete_votes_removes_the_votes_of_the_user_witness :
  (delete_votes example_round 20
     (example_db (example_votes 20 0 1 7 2 ++ example_votes 30 3 5 5 3))).1
  = Ok true
  ∧ votes (delete_votes example_round 20
             (example_db (example_votes 20 0 1 7 2
                          ++ example_votes 30 3 5 5 3))).2
    = example_votes 30 3 5 5 3.
Proof.
  destruct (delete_votes_removes_the_votes_of_the_user example_round 20
              (example_db (example_votes 20 0 1 7 2
                           ++ example_votes 30 3 5 5 3)))
    as (Hret & _).
  split; [exact Hret|reflexivity].
Defined.

Lemma tally_of_short_round_raises_IndexError_witness :
  calculate_results 7 true 200 example_round
    (set_options (λ _, [mkOption 0 0 NO_CHANGE None])
       (example_db [mkVote 0 20 0 4]))
  = (Raise IndexError,
     set_options
       (update_row option_pk (mkOption 0 0 NO_CHANGE (Some 4%Z)))
       (set_options (λ _, [mkOption 0 0 NO_CHANGE None])
          (example_db [mkVote 0 20 0 4]))).
Proof.
  exact (tally_of_short_round_raises_IndexError 7 true 200 example_round
           (set_options (λ _, [mkOption 0 0 NO_CHANGE None])
              (example_db [mkVote 0 20 0 4]))).
Defined.

Lemma delete_votes_uncounts_the_voter_witness :
  participant_count None example_round
    (example_db (example_votes 20 0 1 7 2 ++ example_votes 30 3 5 5 3))
  = S (participant_count None example_round
         (delete_votes example_round 20
            (example_db (example_votes 20 0 1 7 2
                         ++ example_votes 30 3 5 5 3))).2).
Proof.
  destruct (delete_votes_uncounts_the_voter example_round 20
              (example_db (example_votes 20 0 1 7 2
                           ++ example_votes 30 3 5 5 3)))
    as (_ & _ & Hcount).
  exact Hcount.
Defined.
